(** * The look-ahead tree of the star planner

    A shallow embedding of [StarPlanner::buildLookAheadTree]
    (local_planner/src/nodes/star_planner.cpp) and the properties of the
    tree, the closed set and the path it produces.

    Conventions of the embedding:
    - a C++ [float] is an IEEE-754 binary32 value, [spec_float] with
      precision 24 and maximal exponent 128, computed with the operations of
      [SpecFloat] (round to nearest, ties to even);
    - [std::vector<TreeNode>] is a [list TreeNode]; [tree_[i]] is the list
      lookup [tree !! i], and an access outside the vector (undefined in
      C++) makes the embedded function return [None];
    - indices into the tree ([origin], [origin_], [tree_end], the members of
      [closed_set_]) are natural numbers and [depth_], the loop counters and
      the two integer parameters are unbounded integers: the wrap-around of
      [int] is not modelled, which is exact as long as the tree holds fewer
      than 2^31 nodes;
    - the histogram, the cost matrix, the candidate extraction, the edge
      cost and the coordinate transforms live in other files: they are the
      variables of the section below, with the interface the specification
      gives them. *)

From Stdlib Require Import ZArith Lia Floats.SpecFloat.
From stdpp Require Import base option list.

(** ** Binary32 arithmetic *)

Definition float : Type := spec_float.

Module F32.

Definition prec : Z := 24.
Definition emax : Z := 128.

Definition add : float -> float -> float := SFadd prec emax.
Definition sub : float -> float -> float := SFsub prec emax.
Definition mul : float -> float -> float := SFmul prec emax.
Definition div : float -> float -> float := SFdiv prec emax.
Definition sqrt : float -> float := SFsqrt prec emax.
Definition opp : float -> float := SFopp.
Definition ltb : float -> float -> bool := SFltb.

Definition of_Z (z : Z) : float := binary_normalize prec emax z 0 false.

Definition zero : float := S754_zero false.

(** [HUGE_VAL] converted to [float]: positive infinity. *)
Definition HUGE_VAL : float := S754_infinity false.

(** The literal [0.2f], 13421773 * 2^-26. *)
Definition c0_2 : float := S754_finite false 13421773 (-26).
Definition c90 : float := of_Z 90.
Definition c180 : float := of_Z 180.

(** [M_PI_F] of avoidance/common.h, the binary32 value nearest to pi. *)
Definition M_PI_F : float := S754_finite false 13176795 (-22).

End F32.

(** ** Eigen::Vector3f *)

Record Vector3f := mkVector3f { vx : float; vy : float; vz : float }.

Definition vadd (a b : Vector3f) : Vector3f :=
  mkVector3f (F32.add (vx a) (vx b)) (F32.add (vy a) (vy b)) (F32.add (vz a) (vz b)).

Definition vsub (a b : Vector3f) : Vector3f :=
  mkVector3f (F32.sub (vx a) (vx b)) (F32.sub (vy a) (vy b)) (F32.sub (vz a) (vz b)).

(** [v.norm()]: the square root of the sum of the squared coefficients. *)
Definition norm (v : Vector3f) : float :=
  F32.sqrt (F32.add (F32.add (F32.mul (vx v) (vx v)) (F32.mul (vy v) (vy v)))
                    (F32.mul (vz v) (vz v))).

(** ** Tree nodes *)

(** Modelled from the spec: local_planner/tree_node.h is not among the
    sources.  A tree node carries its accumulated cost, its heuristic, the
    polar angles of the direction into it, the index of its parent, its
    closed flag, its depth, its heading and its position and velocity; the
    field names are the ones star_planner.cpp uses. *)
Record TreeNode := mkTreeNode {
  total_cost_ : float;
  heuristic_ : float;
  last_e_ : float;
  last_z_ : float;
  origin_ : nat;
  closed_ : bool;
  depth_ : Z;
  yaw_ : float;
  getPosition : Vector3f;
  getVelocity : Vector3f
}.

(** Modelled from the spec: the constructor [TreeNode(from, d, pos, vel)]
    of tree_node.h.  A fresh node is open, with its parent, depth, position
    and velocity as given and every cost and angle still zero. *)
Definition TreeNode_new (from : nat) (d : Z) (pos vel : Vector3f) : TreeNode :=
  {| total_cost_ := F32.zero; heuristic_ := F32.zero;
     last_e_ := F32.zero; last_z_ := F32.zero;
     origin_ := from; closed_ := false; depth_ := d; yaw_ := F32.zero;
     getPosition := pos; getVelocity := vel |}.

Definition set_total_cost (c : float) (nd : TreeNode) : TreeNode :=
  {| total_cost_ := c; heuristic_ := heuristic_ nd;
     last_e_ := last_e_ nd; last_z_ := last_z_ nd;
     origin_ := origin_ nd; closed_ := closed_ nd; depth_ := depth_ nd;
     yaw_ := yaw_ nd;
     getPosition := getPosition nd; getVelocity := getVelocity nd |}.

Definition set_heuristic (h : float) (nd : TreeNode) : TreeNode :=
  {| total_cost_ := total_cost_ nd; heuristic_ := h;
     last_e_ := last_e_ nd; last_z_ := last_z_ nd;
     origin_ := origin_ nd; closed_ := closed_ nd; depth_ := depth_ nd;
     yaw_ := yaw_ nd;
     getPosition := getPosition nd; getVelocity := getVelocity nd |}.

Definition set_last_e (a : float) (nd : TreeNode) : TreeNode :=
  {| total_cost_ := total_cost_ nd; heuristic_ := heuristic_ nd;
     last_e_ := a; last_z_ := last_z_ nd;
     origin_ := origin_ nd; closed_ := closed_ nd; depth_ := depth_ nd;
     yaw_ := yaw_ nd;
     getPosition := getPosition nd; getVelocity := getVelocity nd |}.

Definition set_last_z (a : float) (nd : TreeNode) : TreeNode :=
  {| total_cost_ := total_cost_ nd; heuristic_ := heuristic_ nd;
     last_e_ := last_e_ nd; last_z_ := a;
     origin_ := origin_ nd; closed_ := closed_ nd; depth_ := depth_ nd;
     yaw_ := yaw_ nd;
     getPosition := getPosition nd; getVelocity := getVelocity nd |}.

Definition set_yaw (a : float) (nd : TreeNode) : TreeNode :=
  {| total_cost_ := total_cost_ nd; heuristic_ := heuristic_ nd;
     last_e_ := last_e_ nd; last_z_ := last_z_ nd;
     origin_ := origin_ nd; closed_ := closed_ nd; depth_ := depth_ nd;
     yaw_ := a;
     getPosition := getPosition nd; getVelocity := getVelocity nd |}.

Definition set_closed (b : bool) (nd : TreeNode) : TreeNode :=
  {| total_cost_ := total_cost_ nd; heuristic_ := heuristic_ nd;
     last_e_ := last_e_ nd; last_z_ := last_z_ nd;
     origin_ := origin_ nd; closed_ := b; depth_ := depth_ nd;
     yaw_ := yaw_ nd;
     getPosition := getPosition nd; getVelocity := getVelocity nd |}.

(** Modelled from the spec: [setCosts(h, c)] of tree_node.h stores the
    heuristic [h] and the accumulated cost [c] of a node. *)
Definition setCosts (h c : float) (nd : TreeNode) : TreeNode :=
  set_total_cost c (set_heuristic h nd).

(** [tree_.back().f = ...]: an update of the last node of the vector. *)
Definition update_back (f : TreeNode -> TreeNode) (tree : list TreeNode)
  : list TreeNode :=
  alter f (length tree - 1) tree.

(** Modelled from the spec: [PolarPoint] of avoidance/common.h, a pair of
    angles (elevation [e], azimuth [z]) and a range [r]. *)
Record PolarPoint := mkPolarPoint { pp_e : float; pp_z : float; pp_r : float }.

(** ** The collaborators *)

(** The code that [buildLookAheadTree] calls and that lives in other files
    (planner_functions, histogram, common, the math library), with the
    interface of the specification: each one is a function of its inputs. *)
Class Collaborators := {
  Cloud : Type;
  Histogram : Type;
  CostMatrix : Type;
  costParameters : Type;
  candidateDirection : Type;
  ALPHA_RES : Z;
  generateNewHistogram : Cloud -> Vector3f -> Histogram;
  get_dist : Histogram -> Z -> Z -> float;
  getCostMatrix :
    Histogram -> Vector3f -> Vector3f -> Vector3f -> costParameters -> float ->
    CostMatrix;
  getBestCandidatesFromCostMatrix : CostMatrix -> Z -> list candidateDirection;
  toPolar : candidateDirection -> float -> PolarPoint;
  polarHistogramToCartesian : PolarPoint -> Vector3f -> Vector3f;
  polarToHistogramIndex : PolarPoint -> Z -> Z * Z;
  costFunction :
    PolarPoint -> float -> Vector3f -> Vector3f -> Vector3f -> costParameters ->
    float;
  atan2 : float -> float -> float;
  round : float -> float
}.

(** ** The planner *)

(** The members of the planner.  The integer parameters are signed: the
    configuration may hold any [int]. *)
Record StarPlanner `{Collaborators} := mkStarPlanner {
  children_per_node_ : Z;
  n_expanded_nodes_ : Z;
  tree_node_distance_ : float;
  max_path_length_ : float;
  smoothing_margin_degrees_ : float;
  tree_age_ : Z;
  position_ : Vector3f;
  velocity_ : Vector3f;
  goal_ : Vector3f;
  projected_last_wp_ : Vector3f;
  curr_yaw_histogram_frame_deg_ : float;
  cost_params_ : costParameters;
  cloud_ : Cloud;
  tree_ : list TreeNode;
  closed_set_ : list nat;
  path_node_positions_ : list Vector3f;
  path_node_origins_ : list nat
}.

(** The variables of the two loops of [buildLookAheadTree]. *)
Record LoopState := mkLoopState {
  ls_tree : list TreeNode;
  ls_closed_set : list nat;
  ls_origin : nat;
  ls_is_expanded_node : bool
}.

(** [treeHeuristicFunction], as a function of the goal and the tree. *)
Definition treeHeuristicFunction (goal : Vector3f) (tree : list TreeNode)
    (node_number : nat) : option float :=
  nd ← tree !! node_number;
  Some (norm (vsub goal (getPosition nd))).

(** The scan for a close node (lines 94-101): [close_nodes] is 1 when a node
    of the tree is nearer than 0.2 to [node_location], and 0 otherwise; the
    scan stops at the first such node. *)
Fixpoint count_close_nodes (tree : list TreeNode) (node_location : Vector3f) : Z :=
  match tree with
  | [] => 0%Z
  | nd :: rest =>
      let dist := norm (vsub (getPosition nd) node_location) in
      if F32.ltb dist F32.c0_2 then 1%Z
      else count_close_nodes rest node_location
  end.

(** The search for the best node to continue (lines 127-138), on the nodes
    from index [i] on. *)
Fixpoint find_best_node (position : Vector3f) (max_path_length : float)
    (nodes : list TreeNode) (i : nat)
    (minimal_cost : float) (origin : nat) (is_expanded_node : bool)
  : float * nat * bool :=
  match nodes with
  | [] => (minimal_cost, origin, is_expanded_node)
  | nd :: rest =>
      if negb (closed_ nd) then
        let node_distance := norm (vsub (getPosition nd) position) in
        if F32.ltb (total_cost_ nd) minimal_cost
           && F32.ltb node_distance max_path_length
        then find_best_node position max_path_length rest (S i)
               (total_cost_ nd) i true
        else find_best_node position max_path_length rest (S i)
               minimal_cost origin is_expanded_node
      else find_best_node position max_path_length rest (S i)
             minimal_cost origin is_expanded_node
  end.

(** The backtracking loop (lines 147-151).  [fuel] bounds the number of
    iterations; the result is [None] when the fuel runs out or when
    [tree_end] leaves the tree. *)
Fixpoint backtrack (fuel : nat) (tree : list TreeNode) (tree_end : nat)
    (origins : list nat) (positions : list Vector3f)
  : option (list nat * list Vector3f) :=
  match tree_end with
  | O => Some (origins, positions)
  | S _ =>
      match fuel with
      | O => None
      | S fuel' =>
          nd ← tree !! tree_end;
          backtrack fuel' tree (origin_ nd)
            (origins ++ [tree_end]) (positions ++ [getPosition nd])
      end
  end.

Section BuildLookAheadTree.

Context `{Collaborators}.

Variable sp : StarPlanner.

(** One round of the loop over the candidates (lines 87-120): [acc] holds
    the tree and the counter [children]. *)
Definition insert_candidate (origin : nat) (depth : Z)
    (origin_position : Vector3f) (histogram : Histogram)
    (acc : list TreeNode * Z) (candidate : candidateDirection)
  : option (list TreeNode * Z) :=
  let tree := fst acc in
  let children := snd acc in
  let candidate_polar := toPolar candidate (tree_node_distance_ sp) in
  let node_location := polarHistogramToCartesian candidate_polar origin_position in
  o ← tree !! origin;
  parent ← tree !! origin_ o;
  let node_velocity :=
    vadd (getVelocity parent) (vsub node_location origin_position) in
  let close_nodes := count_close_nodes tree node_location in
  if (children <? children_per_node_ sp)%Z && (close_nodes =? 0)%Z then
    let tree := tree ++ [TreeNode_new origin depth node_location node_velocity] in
    let tree := update_back (set_last_e (pp_e candidate_polar)) tree in
    let tree := update_back (set_last_z (pp_z candidate_polar)) tree in
    h ← treeHeuristicFunction (goal_ sp) tree (length tree - 1);
    let idx_ppol := polarToHistogramIndex candidate_polar ALPHA_RES in
    let obstacle_distance := get_dist histogram (fst idx_ppol) (snd idx_ppol) in
    let c := costFunction candidate_polar obstacle_distance (goal_ sp)
               node_location node_velocity (cost_params_ sp) in
    let tree := update_back (set_heuristic h) tree in
    o' ← tree !! origin;
    let tree :=
      update_back
        (set_total_cost
           (F32.add (F32.add (F32.sub (total_cost_ o') (heuristic_ o')) c) h))
        tree in
    let diff := vsub node_location origin_position in
    let yaw_radians := atan2 (vy diff) (vx diff) in
    let tree :=
      update_back
        (set_yaw
           (F32.add
              (round (F32.div (F32.mul (F32.opp yaw_radians) F32.c180)
                        F32.M_PI_F))
              F32.c90))
        tree in
    Some (tree, (children + 1)%Z)
  else Some (tree, children).

Fixpoint insert_candidates (origin : nat) (depth : Z)
    (origin_position : Vector3f) (histogram : Histogram)
    (candidate_vector : list candidateDirection) (acc : list TreeNode * Z)
  : option (list TreeNode * Z) :=
  match candidate_vector with
  | [] => Some acc
  | candidate :: rest =>
      acc' ← insert_candidate origin depth origin_position histogram acc candidate;
      insert_candidates origin depth origin_position histogram rest acc'
  end.

(** The candidates the cost evaluator proposes at a node. *)
Definition candidates_at (origin_position origin_velocity : Vector3f)
  : list candidateDirection :=
  let histogram := generateNewHistogram (cloud_ sp) origin_position in
  let cost_matrix :=
    getCostMatrix histogram (goal_ sp) origin_position origin_velocity
      (cost_params_ sp) (smoothing_margin_degrees_ sp) in
  getBestCandidatesFromCostMatrix cost_matrix (children_per_node_ sp).

(** The body of the expansion loop (lines 64-141).  [facing_goal] and
  [distance_to_goal] (lines 66-67) are computed and never read. *)
Definition expand_origin (s : LoopState) : option LoopState :=
  let tree := ls_tree s in
  let origin := ls_origin s in
  o ← tree !! origin;
  let origin_position := getPosition o in
  let origin_velocity := getVelocity o in
  let histogram := generateNewHistogram (cloud_ sp) origin_position in
  let candidate_vector := candidates_at origin_position origin_velocity in
  tree ← match candidate_vector with
          | [] => Some (alter (set_total_cost F32.HUGE_VAL) origin tree)
          | _ :: _ =>
              let depth := (depth_ o + 1)%Z in
              fst <$> insert_candidates origin depth origin_position histogram
                        candidate_vector (tree, 0%Z)
          end;
  let closed_set := ls_closed_set s ++ [origin] in
  _ ← tree !! origin;
  let tree := alter (set_closed true) origin tree in
  let best :=
    find_best_node (position_ sp) (max_path_length_ sp) tree 0
      F32.HUGE_VAL origin false in
  Some (mkLoopState tree closed_set (snd (fst best)) (snd best)).

(** The expansion loop (line 63), with [budget] rounds left. *)
Fixpoint expansion_loop (budget : nat) (s : LoopState) : option LoopState :=
  match budget with
  | O => Some s
  | S budget' =>
      if ls_is_expanded_node s then
        s' ← expand_origin s;
        expansion_loop budget' s'
      else Some s
  end.

(** The tree holding the first node (lines 53-60). *)
Definition initial_tree : option (list TreeNode) :=
  let tree := [] ++ [TreeNode_new 0 0 (position_ sp) (velocity_ sp)] in
  h ← treeHeuristicFunction (goal_ sp) tree 0;
  let tree := update_back (setCosts h h) tree in
  let tree := update_back (set_yaw (curr_yaw_histogram_frame_deg_ sp)) tree in
  back ← last tree;
  Some (update_back (set_last_z (yaw_ back)) tree).

(** The tree and the loop variables when the expansion loop is left. *)
Definition expanded : option LoopState :=
  tree ← initial_tree;
  expansion_loop (Z.to_nat (n_expanded_nodes_ sp)) (mkLoopState tree [] 0 true).

(** [buildLookAheadTree]: the planner after the call.  The backtracking
    loop gets one round per node of the tree. *)
Definition buildLookAheadTree : option StarPlanner :=
  s ← expanded;
  let tree := ls_tree s in
  path ← backtrack (length tree) tree (ls_origin s) [] [];
  root ← tree !! 0;
  Some {| children_per_node_ := children_per_node_ sp;
          n_expanded_nodes_ := n_expanded_nodes_ sp;
          tree_node_distance_ := tree_node_distance_ sp;
          max_path_length_ := max_path_length_ sp;
          smoothing_margin_degrees_ := smoothing_margin_degrees_ sp;
          tree_age_ := 0;
          position_ := position_ sp;
          velocity_ := velocity_ sp;
          goal_ := goal_ sp;
          projected_last_wp_ := projected_last_wp_ sp;
          curr_yaw_histogram_frame_deg_ := curr_yaw_histogram_frame_deg_ sp;
          cost_params_ := cost_params_ sp;
          cloud_ := cloud_ sp;
          tree_ := tree;
          closed_set_ := ls_closed_set s;
          path_node_positions_ := snd path ++ [getPosition root];
          path_node_origins_ := fst path ++ [0] |}.

End BuildLookAheadTree.


(** ** The setters *)

(** The configuration that [dynamicReconfigureSetStarParams] reads.  The
    header generated for it is not among the sources: the scalar type [R]
    of its real-valued fields and the conversion [static_cast<float>] are
    left open. *)
Record LocalPlannerNodeConfig {R : Type} := mkLocalPlannerNodeConfig {
  config_children_per_node_ : Z;
  config_n_expanded_nodes_ : Z;
  config_tree_node_distance_ : R;
  config_box_radius_ : R;
  config_smoothing_margin_degrees_ : R
}.
Arguments LocalPlannerNodeConfig : clear implicits.

Section Setters.

Context `{Collaborators}.

(** [dynamicReconfigureSetStarParams] (lines 14-20); [level] is not read. *)
Definition dynamicReconfigureSetStarParams {R : Type}
  (static_cast_float : R -> float) (config : LocalPlannerNodeConfig R)
  (sp : StarPlanner) : StarPlanner :=
{| children_per_node_ := config_children_per_node_ config;
   n_expanded_nodes_ := config_n_expanded_nodes_ config;
   tree_node_distance_ := static_cast_float (config_tree_node_distance_ config);
   max_path_length_ := static_cast_float (config_box_radius_ config);
   smoothing_margin_degrees_ :=
     static_cast_float (config_smoothing_margin_degrees_ config);
   tree_age_ := tree_age_ sp;
   position_ := position_ sp;
   velocity_ := velocity_ sp;
   goal_ := goal_ sp;
   projected_last_wp_ := projected_last_wp_ sp;
   curr_yaw_histogram_frame_deg_ := curr_yaw_histogram_frame_deg_ sp;
   cost_params_ := cost_params_ sp;
   cloud_ := cloud_ sp;
   tree_ := tree_ sp;
   closed_set_ := closed_set_ sp;
   path_node_positions_ := path_node_positions_ sp;
   path_node_origins_ := path_node_origins_ sp |}.

(** [setParams] (line 22). *)
Definition setParams (cost_params : costParameters) (sp : StarPlanner)
: StarPlanner :=
{| children_per_node_ := children_per_node_ sp;
   n_expanded_nodes_ := n_expanded_nodes_ sp;
   tree_node_distance_ := tree_node_distance_ sp;
   max_path_length_ := max_path_length_ sp;
   smoothing_margin_degrees_ := smoothing_margin_degrees_ sp;
   tree_age_ := tree_age_ sp;
   position_ := position_ sp;
   velocity_ := velocity_ sp;
   goal_ := goal_ sp;
   projected_last_wp_ := projected_last_wp_ sp;
   curr_yaw_histogram_frame_deg_ := curr_yaw_histogram_frame_deg_ sp;
   cost_params_ := cost_params;
   cloud_ := cloud_ sp;
   tree_ := tree_ sp;
   closed_set_ := closed_set_ sp;
   path_node_positions_ := path_node_positions_ sp;
   path_node_origins_ := path_node_origins_ sp |}.

(** [setLastDirection] (line 24). *)
Definition setLastDirection (projected_last_wp : Vector3f) (sp : StarPlanner)
: StarPlanner :=
{| children_per_node_ := children_per_node_ sp;
   n_expanded_nodes_ := n_expanded_nodes_ sp;
   tree_node_distance_ := tree_node_distance_ sp;
   max_path_length_ := max_path_length_ sp;
   smoothing_margin_degrees_ := smoothing_margin_degrees_ sp;
   tree_age_ := tree_age_ sp;
   position_ := position_ sp;
   velocity_ := velocity_ sp;
   goal_ := goal_ sp;
   projected_last_wp_ := projected_last_wp;
   curr_yaw_histogram_frame_deg_ := curr_yaw_histogram_frame_deg_ sp;
   cost_params_ := cost_params_ sp;
   cloud_ := cloud_ sp;
   tree_ := tree_ sp;
   closed_set_ := closed_set_ sp;
   path_node_positions_ := path_node_positions_ sp;
   path_node_origins_ := path_node_origins_ sp |}.

(** [setPose] (lines 26-30).  [wrapAngleToPlusMinus180] is a function of
  avoidance/common.h, taken as an argument. *)
Definition setPose (wrapAngleToPlusMinus180 : float -> float)
  (pos vel : Vector3f) (curr_yaw_fcu_frame_deg : float) (sp : StarPlanner)
: StarPlanner :=
{| children_per_node_ := children_per_node_ sp;
   n_expanded_nodes_ := n_expanded_nodes_ sp;
   tree_node_distance_ := tree_node_distance_ sp;
   max_path_length_ := max_path_length_ sp;
   smoothing_margin_degrees_ := smoothing_margin_degrees_ sp;
   tree_age_ := tree_age_ sp;
   position_ := pos;
   velocity_ := vel;
   goal_ := goal_ sp;
   projected_last_wp_ := projected_last_wp_ sp;
   curr_yaw_histogram_frame_deg_ :=
     wrapAngleToPlusMinus180
       (F32.add (F32.opp curr_yaw_fcu_frame_deg) F32.c90);
   cost_params_ := cost_params_ sp;
   cloud_ := cloud_ sp;
   tree_ := tree_ sp;
   closed_set_ := closed_set_ sp;
   path_node_positions_ := path_node_positions_ sp;
   path_node_origins_ := path_node_origins_ sp |}.

(** [setGoal] (lines 32-35): the goal is stored and the tree is marked as
  old. *)
Definition setGoal (goal : Vector3f) (sp : StarPlanner) : StarPlanner :=
{| children_per_node_ := children_per_node_ sp;
   n_expanded_nodes_ := n_expanded_nodes_ sp;
   tree_node_distance_ := tree_node_distance_ sp;
   max_path_length_ := max_path_length_ sp;
   smoothing_margin_degrees_ := smoothing_margin_degrees_ sp;
   tree_age_ := 1000;
   position_ := position_ sp;
   velocity_ := velocity_ sp;
   goal_ := goal;
   projected_last_wp_ := projected_last_wp_ sp;
   curr_yaw_histogram_frame_deg_ := curr_yaw_histogram_frame_deg_ sp;
   cost_params_ := cost_params_ sp;
   cloud_ := cloud_ sp;
   tree_ := tree_ sp;
   closed_set_ := closed_set_ sp;
   path_node_positions_ := path_node_positions_ sp;
   path_node_origins_ := path_node_origins_ sp |}.

(** [setPointcloud] (line 37). *)
Definition setPointcloud (cloud : Cloud) (sp : StarPlanner) : StarPlanner :=
{| children_per_node_ := children_per_node_ sp;
   n_expanded_nodes_ := n_expanded_nodes_ sp;
   tree_node_distance_ := tree_node_distance_ sp;
   max_path_length_ := max_path_length_ sp;
   smoothing_margin_degrees_ := smoothing_margin_degrees_ sp;
   tree_age_ := tree_age_ sp;
   position_ := position_ sp;
   velocity_ := velocity_ sp;
   goal_ := goal_ sp;
   projected_last_wp_ := projected_last_wp_ sp;
   curr_yaw_histogram_frame_deg_ := curr_yaw_histogram_frame_deg_ sp;
   cost_params_ := cost_params_ sp;
   cloud_ := cloud;
   tree_ := tree_ sp;
   closed_set_ := closed_set_ sp;
   path_node_positions_ := path_node_positions_ sp;
   path_node_origins_ := path_node_origins_ sp |}.

End Setters.

(** ** Vocabulary of the properties *)

(** Two positions are within the proximity threshold when the distance the
    planner computes between them is below [0.2f] (line 96-97). *)
Definition within_threshold (a b : Vector3f) : bool :=
  F32.ltb (norm (vsub a b)) F32.c0_2.

(** [mirror x y]: [y] is the opposite of [x], up to the sign of a zero. *)
Definition mirror (x y : float) : Prop :=
  y = SFopp x \/ exists sx sy, x = S754_zero sx /\ y = S754_zero sy.

(** The fields of a node that are written once, when the node is built. *)
Definition same_static (a b : TreeNode) : Prop :=
  origin_ a = origin_ b /\ depth_ a = depth_ b /\
  getPosition a = getPosition b /\ getVelocity a = getVelocity b /\
  heuristic_ a = heuristic_ b.

(** [parent_chain tree i l]: [l] lists the indices met when the parent
    links are followed from node [i] down to node 0, [i] first and 0 last. *)
Inductive parent_chain (tree : list TreeNode) : nat -> list nat -> Prop :=
| chain_root : parent_chain tree 0 [0]
| chain_step i nd l :
    tree !! S i = Some nd ->
    parent_chain tree (origin_ nd) l ->
    parent_chain tree (S i) (S i :: l).

(** The positions of the nodes with the indices [l]. *)
Definition positions_of (tree : list TreeNode) (l : list nat)
  : list (option Vector3f) :=
  (fun i => getPosition <$> tree !! i) <$> l.

(** The number of nodes of the tree, the root apart, whose parent is [o]. *)
Definition children_of (tree : list TreeNode) (o : nat) : nat :=
  length (filter (fun nd => origin_ nd = o) (drop 1 tree)).

(** [each_accepted tree new]: every node of [new] passed the scan for a
    close node against the tree and the nodes of [new] before it. *)
Fixpoint each_accepted (tree new : list TreeNode) : Prop :=
  match new with
  | [] => True
  | nd :: rest =>
      count_close_nodes tree (getPosition nd) = 0%Z /\
      each_accepted (tree ++ [nd]) rest
  end.

Section Specification.

Context `{Collaborators}.

Variable sp : StarPlanner.

(** The first node, as lines 57-60 leave it. *)
Definition root_node : TreeNode :=
  let h := norm (vsub (goal_ sp) (position_ sp)) in
  {| total_cost_ := h; heuristic_ := h;
     last_e_ := F32.zero;
     last_z_ := curr_yaw_histogram_frame_deg_ sp;
     origin_ := 0; closed_ := false; depth_ := 0%Z;
     yaw_ := curr_yaw_histogram_frame_deg_ sp;
     getPosition := position_ sp; getVelocity := velocity_ sp |}.

(** The state in which the expansion loop is entered. *)
Definition initial_state : LoopState := mkLoopState [root_node] [] 0 true.

(** The position of the node a candidate leads to (line 88-91). *)
Definition child_location (origin_position : Vector3f)
    (candidate : candidateDirection) : Vector3f :=
  polarHistogramToCartesian (toPolar candidate (tree_node_distance_ sp))
    origin_position.

(** The incremental cost of the edge to a candidate (line 109-112), with
    the histogram built at the origin. *)
Definition edge_cost (origin_position : Vector3f)
    (node_velocity : Vector3f) (candidate : candidateDirection) : float :=
  let histogram := generateNewHistogram (cloud_ sp) origin_position in
  let candidate_polar := toPolar candidate (tree_node_distance_ sp) in
  let node_location := child_location origin_position candidate in
  let idx_ppol := polarToHistogramIndex candidate_polar ALPHA_RES in
  costFunction candidate_polar
    (get_dist histogram (fst idx_ppol) (snd idx_ppol))
    (goal_ sp) node_location node_velocity (cost_params_ sp).

(** The heading of line 116-117. *)
Definition child_yaw (diff : Vector3f) : float :=
  F32.add
    (round (F32.div (F32.mul (F32.opp (atan2 (vy diff) (vx diff))) F32.c180)
              F32.M_PI_F))
    F32.c90.

(** The node that lines 104 to 117 leave at the back of the tree for an
    accepted candidate, given the origin [o] and its parent [parent]. *)
Definition child_node (origin : nat) (o parent : TreeNode)
    (candidate : candidateDirection) : TreeNode :=
  let candidate_polar := toPolar candidate (tree_node_distance_ sp) in
  let node_location := child_location (getPosition o) candidate in
  let node_velocity :=
    vadd (getVelocity parent) (vsub node_location (getPosition o)) in
  let h := norm (vsub (goal_ sp) node_location) in
  let c := edge_cost (getPosition o) node_velocity candidate in
  {| total_cost_ :=
       F32.add (F32.add (F32.sub (total_cost_ o) (heuristic_ o)) c) h;
     heuristic_ := h;
     last_e_ := pp_e candidate_polar;
     last_z_ := pp_z candidate_polar;
     origin_ := origin;
     closed_ := false;
     depth_ := (depth_ o + 1)%Z;
     yaw_ := child_yaw (vsub node_location (getPosition o));
     getPosition := node_location;
     getVelocity := node_velocity |}.

(** The test of line 103. *)
Definition accepted (tree : list TreeNode) (children : Z)
    (node_location : Vector3f) : bool :=
  (children <? children_per_node_ sp)%Z
  && (count_close_nodes tree node_location =? 0)%Z.

(** The tree between the loop over the candidates and the closing of the
    origin, when the loop has inserted the nodes [new]. *)
Definition tree_after_candidates (tree : list TreeNode) (origin : nat)
    (o : TreeNode) (new : list TreeNode) : list TreeNode :=
  match candidates_at sp (getPosition o) (getVelocity o) with
  | [] => alter (set_total_cost F32.HUGE_VAL) origin tree
  | _ :: _ => tree ++ new
  end.

(** The state a round of the expansion loop leaves, when it has inserted
    the nodes [new]. *)
Definition state_after_round (s : LoopState) (o : TreeNode)
    (new : list TreeNode) : LoopState :=
  let tree :=
    alter (set_closed true) (ls_origin s)
      (tree_after_candidates (ls_tree s) (ls_origin s) o new) in
  let best :=
    find_best_node (position_ sp) (max_path_length_ sp) tree 0
      F32.HUGE_VAL (ls_origin s) false in
  mkLoopState tree (ls_closed_set s ++ [ls_origin s]) (snd (fst best))
    (snd best).

(** What a round does to its origin: an origin without candidates gets an
    infinite total cost (line 82), and every origin is closed (line 124). *)
Definition close_origin (o nd : TreeNode) : TreeNode :=
  set_closed true
    (match candidates_at sp (getPosition o) (getVelocity o) with
     | [] => set_total_cost F32.HUGE_VAL nd
     | _ :: _ => nd
     end).

(** The nodes [new] are children of the origin [o], built from candidates
    proposed at [o]. *)
Definition children_from (origin : nat) (o parent : TreeNode)
    (new : list TreeNode) : Prop :=
  Forall (fun nd => exists candidate,
            candidate ∈ candidates_at sp (getPosition o) (getVelocity o) /\
            nd = child_node origin o parent candidate) new.

(** A node is a candidate for the next origin when it is open and nearer
    to the start position than [max_path_length_] (line 130-132). *)
Definition eligible (nd : TreeNode) : Prop :=
  closed_ nd = false /\
  F32.ltb (norm (vsub (getPosition nd) (position_ sp))) (max_path_length_ sp)
  = true.

(** The shape of the tree: the root, the parent links, the depths, the
    velocities, the heuristics and the distances between the nodes. *)
Record tree_shape (tree : list TreeNode) : Prop := {
  shape_root :
    exists root, tree !! 0 = Some root /\ origin_ root = 0 /\
      depth_ root = 0%Z /\ getPosition root = position_ sp /\
      getVelocity root = velocity_ sp /\
      heuristic_ root = norm (vsub (goal_ sp) (position_ sp));
  shape_child :
    forall i nd, tree !! i = Some nd -> 0 < i ->
      origin_ nd < i /\
      exists p parent, tree !! origin_ nd = Some p /\
        tree !! origin_ p = Some parent /\
        depth_ nd = (depth_ p + 1)%Z /\
        getVelocity nd
        = vadd (getVelocity parent) (vsub (getPosition nd) (getPosition p)) /\
        heuristic_ nd = norm (vsub (goal_ sp) (getPosition nd));
  shape_apart :
    forall i j ni nj, i < j -> tree !! i = Some ni -> tree !! j = Some nj ->
      within_threshold (getPosition ni) (getPosition nj) = false
}.

(** The bookkeeping of the expansion loop, between two rounds: the origin
    is a node of the tree, open when the loop goes on; the closed set
    lists the closed nodes, each once; only closed nodes have children,
    and no node has more than the branching factor allows. *)
Record loop_inv (s : LoopState) : Prop := {
  inv_shape : tree_shape (ls_tree s);
  inv_origin : ls_origin s < length (ls_tree s);
  inv_open :
    ls_is_expanded_node s = true ->
    exists o, ls_tree s !! ls_origin s = Some o /\ closed_ o = false;
  inv_closed :
    forall i, i ∈ ls_closed_set s <->
      exists nd, ls_tree s !! i = Some nd /\ closed_ nd = true;
  inv_nodup : NoDup (ls_closed_set s);
  inv_children :
    forall i nd, ls_tree s !! i = Some nd ->
      (Z.of_nat (children_of (ls_tree s) i)
       <= Z.max (children_per_node_ sp) 0)%Z /\
      (closed_ nd = false -> children_of (ls_tree s) i = 0)
}.

(** The planners that differ from [sp] only in what a call overwrites or
    never reads: the tree, the closed set, the path, the age of the tree
    and the last waypoint. *)
Definition same_inputs (sp' : StarPlanner) : Prop :=
  children_per_node_ sp = children_per_node_ sp' /\
  n_expanded_nodes_ sp = n_expanded_nodes_ sp' /\
  tree_node_distance_ sp = tree_node_distance_ sp' /\
  max_path_length_ sp = max_path_length_ sp' /\
  smoothing_margin_degrees_ sp = smoothing_margin_degrees_ sp' /\
  position_ sp = position_ sp' /\
  velocity_ sp = velocity_ sp' /\
  goal_ sp = goal_ sp' /\
  curr_yaw_histogram_frame_deg_ sp = curr_yaw_histogram_frame_deg_ sp' /\
  cost_params_ sp = cost_params_ sp' /\
  cloud_ sp = cloud_ sp'.

(** The order of the path as the specification words it: the positions
    along the chain of parents of the last origin, reversed so that the
    position of node 0 comes first. *)
Definition path_runs_root_first : Prop :=
  forall sp' s,
    buildLookAheadTree sp = Some sp' -> expanded sp = Some s ->
    exists chain,
      parent_chain (ls_tree s) (ls_origin s) chain /\
      Some <$> path_node_positions_ sp'
      = positions_of (ls_tree s) (reverse chain).

(** The budget bound as the specification words it, for every value of
    the two parameters. *)
Definition budget_bound_as_stated : Prop :=
  forall sp',
    buildLookAheadTree sp = Some sp' ->
    (Z.of_nat (length (closed_set_ sp')) <= n_expanded_nodes_ sp)%Z /\
    (forall o,
       (Z.of_nat (children_of (tree_ sp') o) <= children_per_node_ sp)%Z) /\
    (Z.of_nat (length (tree_ sp'))
     <= 1 + n_expanded_nodes_ sp * children_per_node_ sp)%Z.

End Specification.

(** ** A small world for the examples *)

Module Scene.

(** The cloud lists the steps that the cost evaluator proposes at every
    node, best first, in multiples of the step distance along x and y; the
    extraction keeps the first [children_per_node_] of them; every edge
    costs one. *)
Definition world : Collaborators :=
  {| Cloud := list (Z * Z);
     Histogram := list (Z * Z);
     CostMatrix := list (Z * Z);
     costParameters := unit;
     candidateDirection := Z * Z;
     ALPHA_RES := 6%Z;
     generateNewHistogram := fun cloud _ => cloud;
     get_dist := fun _ _ _ => F32.zero;
     getCostMatrix := fun histogram _ _ _ _ _ => histogram;
     getBestCandidatesFromCostMatrix :=
       fun cost_matrix n => take (Z.to_nat n) cost_matrix;
     toPolar :=
       fun candidate r =>
         mkPolarPoint (F32.of_Z (fst candidate)) (F32.of_Z (snd candidate)) r;
     polarHistogramToCartesian :=
       fun p origin =>
         vadd origin
           (mkVector3f (F32.mul (pp_e p) (pp_r p)) (F32.mul (pp_z p) (pp_r p))
              F32.zero);
     polarToHistogramIndex := fun _ _ => (0%Z, 0%Z);
     costFunction := fun _ _ _ _ _ _ => F32.of_Z 1;
     atan2 := fun _ _ => F32.zero;
     round := fun x => x |}.

Definition origin3 : Vector3f := mkVector3f F32.zero F32.zero F32.zero.

Definition point (x y z : Z) : Vector3f :=
  mkVector3f (F32.of_Z x) (F32.of_Z y) (F32.of_Z z).

(** A planner at the origin, at rest, with the goal at (5, 0, 0), steps of
    length one and a path radius of ten. *)
Definition planner (n_expanded_nodes children_per_node : Z)
    (cloud : list (Z * Z)) : @StarPlanner world :=
  @mkStarPlanner world
    children_per_node n_expanded_nodes
    (F32.of_Z 1) (F32.of_Z 10) (F32.of_Z 40)
    1000
    origin3 origin3 (point 5 0 0) origin3
    F32.c90
    tt cloud
    [] [] [] [].

(** One step along x is proposed everywhere; two rounds, one child a
    round. *)
Definition straight : @StarPlanner world := planner 2 1 [(1, 0)%Z].

Definition straight_start : LoopState := initial_state straight.

(** The loop variables after the first round, and the two nodes of the
    tree then. *)
Definition straight_round1 : LoopState :=
  default straight_start (expand_origin straight straight_start).

Definition straight_node0 : TreeNode :=
  default (root_node straight) (ls_tree straight_round1 !! 0).

Definition straight_node1 : TreeNode :=
  default (root_node straight) (ls_tree straight_round1 !! 1).

(** The loop variables when the expansion loop is left, and the planner
    after the call. *)
Definition straight_expanded : LoopState :=
  default straight_start (expanded straight).

Definition straight_result : @StarPlanner world :=
  default straight (buildLookAheadTree straight).

(** A negative expansion budget. *)
Definition negative_budget : @StarPlanner world := planner (-1) 1 [(1, 0)%Z].

Definition negative_budget_result : @StarPlanner world :=
  default negative_budget (buildLookAheadTree negative_budget).

(** A branching factor of zero. *)
Definition no_branching : @StarPlanner world := planner 3 0 [(1, 0)%Z].

(** The same step proposed twice. *)
Definition twice : @StarPlanner world := planner 1 2 [(1, 0)%Z; (1, 0)%Z].

End Scene.

(** ** Vocabulary of the further properties *)

(** A node without its accumulated cost and its closed flag, the two fields
    that are written after the node is built. *)
Definition skeleton (nd : TreeNode) : TreeNode :=
  set_closed false (set_total_cost F32.zero nd).

Section Ledger.

Context `{Collaborators}.

Variable sp : StarPlanner.

(** A node is within the path radius when the search for the next origin
  finds it nearer to the start position than [max_path_length_]. *)
Definition near (nd : TreeNode) : Prop :=
F32.ltb (norm (vsub (getPosition nd) (position_ sp))) (max_path_length_ sp)
= true.

(** A node has a price when its accumulated cost is below [HUGE_VAL], the
  value the search for the next origin starts from (line 127). *)
Definition priced (nd : TreeNode) : Prop :=
F32.ltb (total_cost_ nd) F32.HUGE_VAL = true.

(** A dead end: a closed node at which no candidate was proposed, with the
  infinite total cost of line 82. *)
Definition dead_end (nd : TreeNode) : Prop :=
closed_ nd = true /\
candidates_at sp (getPosition nd) (getVelocity nd) = [] /\
total_cost_ nd = F32.HUGE_VAL.

(** [built_from tree nd]: the node [nd] is what lines 104 to 117 build for a
  candidate proposed at its parent, a closed node of [tree]; its closed
  flag apart, it still is that node, unless it has become a dead end. *)
Definition built_from (tree : list TreeNode) (nd : TreeNode) : Prop :=
exists p grandparent candidate,
  tree !! origin_ nd = Some p /\
  tree !! origin_ p = Some grandparent /\
  closed_ p = true /\
  candidate ∈ candidates_at sp (getPosition p) (getVelocity p) /\
  skeleton nd = skeleton (child_node sp (origin_ nd) p grandparent candidate) /\
  (total_cost_ nd
   = total_cost_ (child_node sp (origin_ nd) p grandparent candidate) \/
   dead_end nd).

(** The first node keeps what lines 57 to 60 gave it, its closed flag
  apart, unless it has become a dead end. *)
Definition root_kept (root : TreeNode) : Prop :=
skeleton root = skeleton (root_node sp) /\
(total_cost_ root = total_cost_ (root_node sp) \/ dead_end root).

(** [best_open_node tree i o]: node [i] of the tree is [o], an open node
  within the path radius that has a price; no such node is cheaper, and
  none before it has the same accumulated cost. *)
Definition best_open_node (tree : list TreeNode) (i : nat) (o : TreeNode)
: Prop :=
tree !! i = Some o /\ eligible sp o /\ priced o /\
forall j nj, tree !! j = Some nj -> eligible sp nj ->
  F32.ltb (total_cost_ nj) (total_cost_ o) = false /\
  (j < i -> total_cost_ nj <> total_cost_ o).

(** The search for the next origin has stalled on a tree when no open node
  within the path radius has a price. *)
Definition stalled (tree : list TreeNode) : Prop :=
forall j nj, tree !! j = Some nj -> eligible sp nj -> ~ priced nj.

(** The choice of the next origin as the specification words it: after a
  round, whenever the tree holds an open node within the path radius the
  loop goes on with such a node, one of the lowest accumulated cost; and
  when the tree holds none the loop stops. *)
Definition origin_choice_as_stated : Prop :=
forall s s',
  expand_origin sp s = Some s' ->
  ((exists j nj, ls_tree s' !! j = Some nj /\ eligible sp nj) ->
   ls_is_expanded_node s' = true /\
   exists nd,
     ls_tree s' !! ls_origin s' = Some nd /\ eligible sp nd /\
     forall j nj, ls_tree s' !! j = Some nj -> eligible sp nj ->
       F32.ltb (total_cost_ nj) (total_cost_ nd) = false) /\
  ((forall j nj, ls_tree s' !! j = Some nj -> ~ eligible sp nj) ->
   ls_is_expanded_node s' = false).

(** What the expansion loop keeps between two rounds, beside [loop_inv]:
  how each node was built, the depths, and which nodes were closed and
  which is the origin. *)
Record round_inv (s : LoopState) : Prop := {
rinv_root : exists root, ls_tree s !! 0 = Some root /\ root_kept root;
rinv_built :
  forall i nd, ls_tree s !! i = Some nd -> 0 < i ->
    built_from (ls_tree s) nd;
rinv_depth :
  forall i nd, ls_tree s !! i = Some nd ->
    (0 <= depth_ nd <= Z.of_nat (length (ls_closed_set s)))%Z;
rinv_first :
  (ls_closed_set s = [] /\ ls_origin s = 0 /\ ls_is_expanded_node s = true)
  \/ head (ls_closed_set s) = Some 0;
rinv_near :
  forall i, i ∈ ls_closed_set s ->
    i = 0 \/ exists nd, ls_tree s !! i = Some nd /\ near nd;
rinv_origin :
  ls_closed_set s <> [] ->
  if ls_is_expanded_node s
  then exists o, best_open_node (ls_tree s) (ls_origin s) o
  else last (ls_closed_set s) = Some (ls_origin s) /\ stalled (ls_tree s)
}.

End Ledger.

(** ** Configurations with binary64 fields *)

Module F64.

Definition prec : Z := 53.
Definition emax : Z := 1024.

(** A C++ [double]. *)
Definition double : Type := spec_float.

Definition of_Z (z : Z) : double := binary_normalize prec emax z 0 false.

(** [static_cast<float>] of a [double]: the nearest binary32 value. *)
Definition to_float (x : double) : float :=
match x with
| S754_finite s m e => binary_round F32.prec F32.emax s m e
| _ => x
end.

End F64.

Module Tuning.

(** A configuration: three rounds, two children a node, steps of length
  one, a box radius of one and a half. *)
Definition config : LocalPlannerNodeConfig F64.double :=
{| config_children_per_node_ := 2;
   config_n_expanded_nodes_ := 3;
   config_tree_node_distance_ := F64.of_Z 1;
   config_box_radius_ := S754_finite false 3 (-1);
   config_smoothing_margin_degrees_ := F64.of_Z 40 |}.

(** Steps along x and along y are proposed everywhere. *)
Definition fan : @StarPlanner Scene.world :=
dynamicReconfigureSetStarParams F64.to_float config
  (Scene.planner 0 0 [(1, 0)%Z; (0, 1)%Z]).

Definition fan_start : LoopState := initial_state fan.

Definition fan_round1 : LoopState :=
default fan_start (expand_origin fan fan_start).

Definition fan_round2 : LoopState :=
default fan_round1 (expand_origin fan fan_round1).

(** Two steps that lead equally near to the goal are proposed: one round,
  two children. *)
Definition tie : @StarPlanner Scene.world :=
Scene.planner 1 2 [(0, 1)%Z; (0, -1)%Z].

Definition tie_start : LoopState := initial_state tie.

Definition tie_round1 : LoopState :=
default tie_start (expand_origin tie tie_start).

(** The planner after the call on the fan scene, and node 4 of its tree. *)
Definition fan_result : @StarPlanner Scene.world :=
default fan (buildLookAheadTree fan).

Definition fan_node4 : TreeNode :=
default (root_node fan) (tree_ fan_result !! 4).

(** One round, and the only step proposed leads to a point at the path
  radius exactly. *)
Definition brink : @StarPlanner Scene.world := Scene.planner 1 1 [(10, 0)%Z].

End Tuning.

Module Straight.

(** The three nodes of the tree that the call on the straight scene
  produces. *)
Definition node0 : TreeNode :=
default (root_node Scene.straight) (tree_ Scene.straight_result !! 0).

Definition node1 : TreeNode :=
default (root_node Scene.straight) (tree_ Scene.straight_result !! 1).

Definition node2 : TreeNode :=
default (root_node Scene.straight) (tree_ Scene.straight_result !! 2).

End Straight.

Module Far.

(** The straight scene with the goal at (2^100, 0, 0): the square of the
  distance to the goal exceeds the range of binary32. *)
Definition planner : @StarPlanner Scene.world :=
setGoal (Scene.point (2 ^ 100) 0 0) Scene.straight.

Definition start : LoopState := initial_state planner.

Definition round1 : LoopState := default start (expand_origin planner start).

Definition node1 : TreeNode :=
default (root_node planner) (ls_tree round1 !! 1).

End Far.
(** ** Basic facts on the vector of nodes *)

Lemma update_back_snoc (f : TreeNode -> TreeNode) (tree : list TreeNode) (nd : TreeNode) :
  update_back f (tree ++ [nd]) = tree ++ [f nd].
Proof.
  unfold update_back. rewrite length_app. simpl.
  replace (length tree + 1 - 1) with (length tree + 0) by lia.
  rewrite alter_app_r. reflexivity.
Qed.

Lemma lookup_snoc_back (tree : list TreeNode) (nd : TreeNode) :
  (tree ++ [nd]) !! (length (tree ++ [nd]) - 1) = Some nd.
Proof.
  rewrite length_app. simpl.
  replace (length tree + 1 - 1) with (length tree) by lia.
  apply list_lookup_middle. reflexivity.
Qed.

(** ** The order of binary32 values *)

Lemma ltb_irrefl (a : float) : F32.ltb a a = false.
Proof.
  unfold F32.ltb, SFltb.
  destruct a as [s|s| |s m e]; try destruct s; simpl; try reflexivity.
  - rewrite Z.compare_refl. rewrite Pos.compare_cont_refl. reflexivity.
  - rewrite Z.compare_refl. rewrite Pos.compare_cont_refl. reflexivity.
Qed.

Lemma ltb_trans (a b c : float) :
  F32.ltb a b = true -> F32.ltb b c = true -> F32.ltb a c = true.
Proof.
  unfold F32.ltb, SFltb.
  destruct a as [sa|sa| |sa ma ea], b as [sb|sb| |sb mb eb],
           c as [sc|sc| |sc mc ec];
    try destruct sa; try destruct sb; try destruct sc; simpl;
    try discriminate; try reflexivity;
    fold (Pos.compare ma mb); fold (Pos.compare mb mc); fold (Pos.compare ma mc);
    destruct (Z.compare_spec ea eb), (Z.compare_spec eb ec),
             (Z.compare_spec ea ec);
    try discriminate; try reflexivity; try lia; subst;
    destruct (Pos.compare_spec ma mb), (Pos.compare_spec mb mc),
             (Pos.compare_spec ma mc);
    simpl; try discriminate; try reflexivity; try lia.
Qed.

Lemma ltb_asym (a b : float) : F32.ltb a b = true -> F32.ltb b a = false.
Proof.
  intros Hab. destruct (F32.ltb b a) eqn:Hba; [|reflexivity].
  pose proof (ltb_trans _ _ _ Hab Hba) as Haa.
  rewrite ltb_irrefl in Haa. discriminate.
Qed.

(** ** The distance does not depend on the order of the two points *)

Lemma binary_round_aux_opp (m e : Z) (l : location) :
  binary_round_aux F32.prec F32.emax true m e l
  = SFopp (binary_round_aux F32.prec F32.emax false m e l).
Proof.
  unfold binary_round_aux.
  destruct (shr_fexp F32.prec F32.emax m e l) as [mrs' e'].
  destruct (shr_fexp F32.prec F32.emax _ e' loc_Exact) as [mrs'' e''].
  destruct (shr_m mrs''); try reflexivity.
  destruct (Z.leb e'' (Z.sub F32.emax F32.prec)); reflexivity.
Qed.

Lemma binary_round_opp (m : positive) (e : Z) :
  binary_round F32.prec F32.emax true m e
  = SFopp (binary_round F32.prec F32.emax false m e).
Proof.
  unfold binary_round.
  destruct (shl_align m e _) as [mz ez]. apply binary_round_aux_opp.
Qed.

Lemma binary_normalize_mirror (d e : Z) :
  mirror (binary_normalize F32.prec F32.emax d e false)
    (binary_normalize F32.prec F32.emax (- d) e false).
Proof.
  destruct d as [|p|p]; simpl.
  - right. exists false, false. split; reflexivity.
  - left. apply binary_round_opp.
  - left. rewrite binary_round_opp.
    destruct (binary_round F32.prec F32.emax false p e) as [s|s| |s m' e'];
      simpl; try destruct s; reflexivity.
Qed.

Lemma sub_mirror (a b : float) : mirror (F32.sub a b) (F32.sub b a).
Proof.
  unfold F32.sub.
  destruct a as [sa|sa| |sa ma ea], b as [sb|sb| |sb mb eb];
    try (left; destruct sa; try destruct sb; reflexivity);
    try (left; destruct sb; reflexivity);
    try (left; reflexivity).
  - right. destruct sa, sb; eexists _, _; split; reflexivity.
  - unfold SFsub. rewrite (Z.min_comm eb ea).
    set (x := cond_Zopp sa _). set (y := cond_Zopp sb _).
    replace (Z.sub y x) with (- (Z.sub x y))%Z by lia.
    apply binary_normalize_mirror.
Qed.

Lemma square_mirror (x y : float) : mirror x y -> F32.mul x x = F32.mul y y.
Proof.
  intros [->|(sx & sy & -> & ->)].
  - destruct x as [s|s| |s m e]; simpl; try destruct s; reflexivity.
  - destruct sx, sy; reflexivity.
Qed.

Lemma norm_vsub_sym (a b : Vector3f) : norm (vsub a b) = norm (vsub b a).
Proof.
  unfold norm, vsub. simpl.
  rewrite (square_mirror _ _ (sub_mirror (vx a) (vx b))).
  rewrite (square_mirror _ _ (sub_mirror (vy a) (vy b))).
  rewrite (square_mirror _ _ (sub_mirror (vz a) (vz b))).
  reflexivity.
Qed.

Lemma within_threshold_sym (a b : Vector3f) :
  within_threshold a b = within_threshold b a.
Proof. unfold within_threshold. rewrite norm_vsub_sym. reflexivity. Qed.

(** ** Counting children *)

Lemma children_of_static (tree tree' : list TreeNode) (o : nat) :
  Forall2 same_static tree tree' -> children_of tree o = children_of tree' o.
Proof.
  intros HF. unfold children_of.
  assert (HD : Forall2 same_static (drop 1 tree) (drop 1 tree'))
    by (apply Forall2_drop, HF).
  induction HD as [|x y l k Hxy _ IH]; [reflexivity|].
  rewrite !filter_cons. destruct Hxy as (Ho & _). rewrite <- Ho.
  destruct (decide (origin_ x = o)); simpl; rewrite IH; reflexivity.
Qed.

Lemma filter_origin_none (l : list TreeNode) (o : nat) :
  Forall (fun nd => origin_ nd <> o) l ->
  length (filter (fun nd => origin_ nd = o) l) = 0.
Proof.
  induction 1 as [|x l Hx _ IH]; [reflexivity|].
  rewrite filter_cons. destruct (decide (origin_ x = o)); [contradiction|exact IH].
Qed.

Lemma filter_origin_all (l : list TreeNode) (o : nat) :
  Forall (fun nd => origin_ nd = o) l ->
  length (filter (fun nd => origin_ nd = o) l) = length l.
Proof.
  induction 1 as [|x l Hx _ IH]; [reflexivity|].
  rewrite filter_cons. destruct (decide (origin_ x = o)); [|contradiction].
  simpl. rewrite IH. reflexivity.
Qed.

Lemma children_of_app (tree new : list TreeNode) (o : nat) :
  tree <> [] ->
  children_of (tree ++ new) o
  = children_of tree o + length (filter (fun nd => origin_ nd = o) new).
Proof.
  intros Hne. unfold children_of. destruct tree as [|r tree]; [contradiction|].
  simpl. rewrite !drop_0, filter_app, length_app. reflexivity.
Qed.

Lemma children_of_none (tree : list TreeNode) (o : nat) :
  Forall (fun nd => origin_ nd <> o) tree -> children_of tree o = 0.
Proof.
  intros HF. unfold children_of. apply filter_origin_none.
  apply Forall_drop, HF.
Qed.

Section Expansion.

Context `{Collaborators}.

Variable sp : StarPlanner.

Lemma insert_candidate_eq origin tree children candidate o parent :
  tree !! origin = Some o ->
  tree !! origin_ o = Some parent ->
  insert_candidate sp origin (depth_ o + 1) (getPosition o)
    (generateNewHistogram (cloud_ sp) (getPosition o)) (tree, children)
    candidate
  = Some (if accepted sp tree children (child_location sp (getPosition o) candidate)
          then (tree ++ [child_node sp origin o parent candidate],
                (children + 1)%Z)
          else (tree, children)).
Proof.
  intros Ho Hp. unfold insert_candidate, accepted, child_location. simpl.
  rewrite Ho. simpl. rewrite Hp. simpl.
  destruct ((children <? children_per_node_ sp)%Z
            && (count_close_nodes tree _ =? 0)%Z); [|reflexivity].
  rewrite !update_back_snoc.
  unfold treeHeuristicFunction. rewrite lookup_snoc_back. simpl.
  rewrite !update_back_snoc.
  rewrite (lookup_app_l_Some _ _ _ _ Ho). simpl.
  rewrite !update_back_snoc. reflexivity.
Qed.

Lemma count_close_nodes_range tree loc :
  count_close_nodes tree loc = 0%Z \/ count_close_nodes tree loc = 1%Z.
Proof.
  induction tree as [|nd rest IH]; simpl; [left; reflexivity|].
  destruct (F32.ltb _ _); [right; reflexivity|exact IH].
Qed.

Lemma count_close_nodes_zero tree loc :
  count_close_nodes tree loc = 0%Z <->
  forall nd, nd ∈ tree -> within_threshold (getPosition nd) loc = false.
Proof.
  induction tree as [|nd rest IH]; simpl.
  - split; [|reflexivity]. intros _ nd Hnd. inversion Hnd.
  - unfold within_threshold at 1.
    destruct (F32.ltb (norm (vsub (getPosition nd) loc)) F32.c0_2) eqn:Hd.
    + split; [discriminate|]. intros Hall.
      specialize (Hall nd (list_elem_of_here _ _)).
      unfold within_threshold in Hall. congruence.
    + rewrite IH. split.
      * intros Hall x Hx. apply elem_of_cons in Hx as [->|Hx];
          [exact Hd|apply Hall, Hx].
      * intros Hall x Hx. apply Hall. apply list_elem_of_further, Hx.
Qed.

Lemma same_static_refl nd : same_static nd nd.
Proof. repeat split. Qed.

Lemma alter_same_static f i (tree : list TreeNode) :
  (forall nd, same_static nd (f nd)) ->
  Forall2 same_static tree (alter f i tree).
Proof.
  intros Hf. revert i. induction tree as [|nd rest IH]; intros i.
  - constructor.
  - destruct i as [|i]; simpl.
    + constructor; [apply Hf|]. apply Forall2_same_length_lookup_2;
        [reflexivity|]. intros j x y Hx Hy.
      rewrite Hx in Hy. inversion Hy. apply same_static_refl.
    + constructor; [apply same_static_refl|apply IH].
Qed.

Lemma tree_shape_static tree tree' :
  Forall2 same_static tree tree' -> tree_shape sp tree -> tree_shape sp tree'.
Proof.
  intros HF [Hroot Hchild Hapart]. split.
  - destruct Hroot as (root & Hr & Ho & Hd & Hp & Hv & Hh).
    destruct (Forall2_lookup_l _ _ _ _ _ HF Hr) as (root' & Hr' & Hs).
    destruct Hs as (So & Sd & Sp & Sv & Sh).
    exists root'. repeat split; congruence.
  - intros i nd' Hnd' Hi.
    destruct (Forall2_lookup_r _ _ _ _ _ HF Hnd') as (nd & Hnd & Hs).
    destruct (Hchild i nd Hnd Hi) as (Hlt & p & parent & Hp & Hpp & Hd & Hv & Hh).
    destruct Hs as (So & Sd & Sp & Sv & Sh).
    destruct (Forall2_lookup_l _ _ _ _ _ HF Hp) as (p' & Hp' & Hsp).
    destruct Hsp as (Po & Pd & Pp & Pv & Ph).
    destruct (Forall2_lookup_l _ _ _ _ _ HF Hpp) as (parent' & Hpp' & Hspp).
    destruct Hspp as (Qo & Qd & Qp & Qv & Qh).
    split; [congruence|].
    exists p', parent'. repeat split; congruence.
  - intros i j ni' nj' Hij Hi Hj.
    destruct (Forall2_lookup_r _ _ _ _ _ HF Hi) as (ni & Hni & Hsi).
    destruct (Forall2_lookup_r _ _ _ _ _ HF Hj) as (nj & Hnj & Hsj).
    destruct Hsi as (_ & _ & Spi & _). destruct Hsj as (_ & _ & Spj & _).
    rewrite <- Spi, <- Spj. exact (Hapart i j ni nj Hij Hni Hnj).
Qed.

Lemma tree_shape_snoc tree origin o parent candidate :
  tree_shape sp tree ->
  tree !! origin = Some o ->
  tree !! origin_ o = Some parent ->
  count_close_nodes tree (child_location sp (getPosition o) candidate) = 0%Z ->
  tree_shape sp (tree ++ [child_node sp origin o parent candidate]).
Proof.
  intros [Hroot Hchild Hapart] Ho Hp Hfar.
  pose proof (lookup_lt_Some _ _ _ Ho) as Hlen.
  split.
  - destruct Hroot as (root & Hr & Hrest). exists root.
    split; [apply lookup_app_l_Some, Hr|exact Hrest].
  - intros i nd Hnd Hi.
    apply lookup_snoc_Some in Hnd as [[Hlt Hnd]|[-> <-]].
    + destruct (Hchild i nd Hnd Hi) as (Hlt' & p & pp & Hp1 & Hp2 & Hrest).
      split; [exact Hlt'|]. exists p, pp.
      split; [apply lookup_app_l_Some, Hp1|].
      split; [apply lookup_app_l_Some, Hp2|exact Hrest].
    + simpl. split; [exact Hlen|]. exists o, parent.
      split; [apply lookup_app_l_Some, Ho|].
      split; [apply lookup_app_l_Some, Hp|]. repeat split.
  - intros i j ni nj Hij Hi Hj.
    apply lookup_snoc_Some in Hj as [[Hlt Hj]|[-> <-]].
    + rewrite lookup_app_l in Hi by lia. exact (Hapart i j ni nj Hij Hi Hj).
    + rewrite lookup_app_l in Hi by lia. simpl.
      apply (proj1 (count_close_nodes_zero _ _) Hfar).
      apply list_elem_of_lookup. exists i. exact Hi.
Qed.

Lemma insert_candidate_lookup origin depth origin_position histogram acc
    candidate acc' :
  insert_candidate sp origin depth origin_position histogram acc candidate
  = Some acc' ->
  exists o parent,
    fst acc !! origin = Some o /\ fst acc !! origin_ o = Some parent.
Proof.
  unfold insert_candidate. intros Hi.
  destruct (fst acc !! origin) as [o|] eqn:Ho; [|discriminate]. simpl in Hi.
  destruct (fst acc !! origin_ o) as [parent|] eqn:Hp; [|discriminate].
  exists o, parent. split; [reflexivity|exact Hp].
Qed.

Lemma insert_candidates_spec origin o parent candidates :
  forall tree children,
    tree !! origin = Some o ->
    tree !! origin_ o = Some parent ->
    exists new,
      insert_candidates sp origin (depth_ o + 1) (getPosition o)
        (generateNewHistogram (cloud_ sp) (getPosition o)) candidates
        (tree, children)
      = Some (tree ++ new, (children + Z.of_nat (length new))%Z) /\
      Forall (fun nd => exists candidate,
                candidate ∈ candidates /\
                nd = child_node sp origin o parent candidate) new /\
      each_accepted tree new /\
      (children + Z.of_nat (length new)
       <= Z.max children (children_per_node_ sp))%Z.
Proof.
  induction candidates as [|candidate rest IH]; intros tree children Ho Hp.
  - exists []. simpl. rewrite app_nil_r, Z.add_0_r.
    repeat split; [constructor|lia].
  - simpl. rewrite (insert_candidate_eq _ _ _ _ _ _ Ho Hp). simpl.
    destruct (accepted sp tree children _) eqn:Hacc.
    + apply andb_true_iff in Hacc as [Hlt Hfar].
      apply Z.ltb_lt in Hlt. apply Z.eqb_eq in Hfar.
      destruct (IH (tree ++ [child_node sp origin o parent candidate])
                  (children + 1)%Z
                  (lookup_app_l_Some _ _ _ _ Ho) (lookup_app_l_Some _ _ _ _ Hp))
        as (new & Heq & Hall & Hacc' & Hle).
      exists (child_node sp origin o parent candidate :: new).
      rewrite Heq. rewrite <- app_assoc. simpl.
      split; [f_equal; f_equal; lia|].
      split.
      { constructor.
        - exists candidate. split; [apply list_elem_of_here|reflexivity].
        - eapply Forall_impl; [exact Hall|]. intros nd (c & Hc & ->).
          exists c. split; [apply list_elem_of_further, Hc|reflexivity]. }
      split; [split; [exact Hfar|exact Hacc']|lia].
    + destruct (IH tree children Ho Hp) as (new & Heq & Hall & Hacc' & Hle).
      exists new. split; [exact Heq|]. split; [|split; assumption].
      eapply Forall_impl; [exact Hall|]. intros nd (c & Hc & ->).
      exists c. split; [apply list_elem_of_further, Hc|reflexivity].
Qed.

Lemma tree_shape_app origin o parent new :
  forall tree,
    tree_shape sp tree ->
    tree !! origin = Some o ->
    tree !! origin_ o = Some parent ->
    Forall (fun nd => exists candidate,
              nd = child_node sp origin o parent candidate) new ->
    each_accepted tree new ->
    tree_shape sp (tree ++ new).
Proof.
  induction new as [|nd rest IH]; intros tree Hshape Ho Hp Hall Hacc.
  - rewrite app_nil_r. exact Hshape.
  - inversion Hall as [|? ? [candidate ->] Hall']; subst.
    destruct Hacc as [Hfar Hacc].
    rewrite cons_middle, app_assoc. apply IH.
    + apply tree_shape_snoc; assumption.
    + apply lookup_app_l_Some, Ho.
    + apply lookup_app_l_Some, Hp.
    + exact Hall'.
    + exact Hacc.
Qed.

(** A round of the expansion loop, when the origin and its parent are
    nodes of the tree. *)
Lemma expand_origin_eq s o parent :
  ls_tree s !! ls_origin s = Some o ->
  ls_tree s !! origin_ o = Some parent ->
  exists new,
    expand_origin sp s = Some (state_after_round sp s o new) /\
    children_from sp (ls_origin s) o parent new /\
    each_accepted (ls_tree s) new /\
    (Z.of_nat (length new) <= Z.max 0 (children_per_node_ sp))%Z /\
    (candidates_at sp (getPosition o) (getVelocity o) = [] -> new = []).
Proof.
  intros Ho Hp. unfold expand_origin, state_after_round, tree_after_candidates.
  rewrite Ho. simpl.
  destruct (candidates_at sp (getPosition o) (getVelocity o))
    as [|candidate rest] eqn:Hc.
  - exists []. simpl.
    rewrite list_lookup_alter_eq, Ho. simpl.
    repeat split; [constructor|lia].
  - destruct (insert_candidates_spec (ls_origin s) o parent (candidate :: rest)
                (ls_tree s) 0%Z Ho Hp) as (new & Heq & Hall & Hacc & Hle).
    exists new. rewrite Heq. simpl.
    rewrite (lookup_app_l_Some _ _ _ _ Ho). simpl.
    split; [reflexivity|]. split; [|split; [exact Hacc|split; [lia|discriminate]]].
    unfold children_from. rewrite Hc. exact Hall.
Qed.

(** Every round that returns is one of those. *)
Lemma expand_origin_inv s s' :
  expand_origin sp s = Some s' ->
  exists o new,
    ls_tree s !! ls_origin s = Some o /\
    s' = state_after_round sp s o new /\
    (candidates_at sp (getPosition o) (getVelocity o) = [] -> new = []) /\
    (Z.of_nat (length new) <= Z.max 0 (children_per_node_ sp))%Z /\
    each_accepted (ls_tree s) new /\
    (new <> [] ->
     exists parent, ls_tree s !! origin_ o = Some parent /\
       children_from sp (ls_origin s) o parent new).
Proof.
  intros He.
  destruct (ls_tree s !! ls_origin s) as [o|] eqn:Ho;
    [|unfold expand_origin in He; rewrite Ho in He; discriminate].
  destruct (ls_tree s !! origin_ o) as [parent|] eqn:Hp.
  - destruct (expand_origin_eq s o parent Ho Hp)
      as (new & Heq & Hall & Hacc & Hle & Hnil).
    exists o, new. rewrite Heq in He. inversion He.
    repeat split; try assumption. intros _. exists parent. split; [exact Hp|exact Hall].
  - exists o, []. split; [reflexivity|].
    unfold expand_origin in He. rewrite Ho in He. simpl in He.
    unfold state_after_round, tree_after_candidates.
    destruct (candidates_at sp (getPosition o) (getVelocity o))
      as [|candidate rest] eqn:Hc.
    + simpl in He. rewrite list_lookup_alter_eq, Ho in He. simpl in He.
      split; [inversion He; reflexivity|]. split; [reflexivity|].
      split; [simpl; lia|]. split; [exact I|].
      intros Hne. exfalso. apply Hne. reflexivity.
    + exfalso. simpl in He.
      destruct (insert_candidate sp (ls_origin s) (depth_ o + 1) (getPosition o)
                  (generateNewHistogram (cloud_ sp) (getPosition o))
                  (ls_tree s, 0%Z) candidate) as [acc'|] eqn:Hi.
      * apply insert_candidate_lookup in Hi as (o' & parent & Ho' & Hp').
        simpl in Ho', Hp'. rewrite Ho in Ho'. inversion Ho'; subst o'.
        rewrite Hp in Hp'. discriminate.
      * simpl in He. discriminate.
Qed.

Lemma eligible_dec nd :
  negb (closed_ nd) = true ->
  F32.ltb (norm (vsub (getPosition nd) (position_ sp))) (max_path_length_ sp)
  = true ->
  eligible sp nd.
Proof.
  intros Hc Hd. split; [|exact Hd]. destruct (closed_ nd); [discriminate|reflexivity].
Qed.

(** The search for the best node either leaves its variables as they were,
    when no candidate origin is cheaper than [minimal_cost], or ends on a
    candidate origin that none undercuts. *)
Lemma find_best_node_spec nodes :
  forall i minimal_cost origin flag,
    (find_best_node (position_ sp) (max_path_length_ sp) nodes i
       minimal_cost origin flag = (minimal_cost, origin, flag) /\
     forall k nd, nodes !! k = Some nd -> eligible sp nd ->
       F32.ltb (total_cost_ nd) minimal_cost = false)
    \/
    (exists k nd,
       nodes !! k = Some nd /\
       find_best_node (position_ sp) (max_path_length_ sp) nodes i
         minimal_cost origin flag = (total_cost_ nd, i + k, true) /\
       eligible sp nd /\
       F32.ltb (total_cost_ nd) minimal_cost = true /\
       forall k' nd', nodes !! k' = Some nd' -> eligible sp nd' ->
         F32.ltb (total_cost_ nd') (total_cost_ nd) = false).
Proof.
  induction nodes as [|nd rest IH]; intros i m origin flag.
  - left. split; [reflexivity|]. intros k x Hk. inversion Hk.
  - simpl.
    destruct (negb (closed_ nd)) eqn:Hopen; simpl.
    + destruct (F32.ltb (total_cost_ nd) m) eqn:Hlt; simpl.
      * destruct (F32.ltb (norm (vsub (getPosition nd) (position_ sp)))
                    (max_path_length_ sp)) eqn:Hnear.
        -- right.
           destruct (IH (S i) (total_cost_ nd) i true)
             as [[Heq Hall]|(k & x & Hk & Heq & Hel & Hlt' & Hall)].
           ++ exists 0, nd. rewrite Heq, Nat.add_0_r.
              split; [reflexivity|]. split; [reflexivity|].
              split; [apply eligible_dec; assumption|]. split; [exact Hlt|].
              intros [|k'] x Hk' Hel.
              ** inversion Hk'; subst. apply ltb_irrefl.
              ** apply (Hall k' x Hk' Hel).
           ++ exists (S k), x. rewrite Heq.
              split; [exact Hk|]. split; [f_equal; f_equal; lia|].
              split; [exact Hel|].
              split; [exact (ltb_trans _ _ _ Hlt' Hlt)|].
              intros [|k'] y Hk' Hel'.
              ** inversion Hk'; subst. apply ltb_asym, Hlt'.
              ** apply (Hall k' y Hk' Hel').
        -- destruct (IH (S i) m origin flag)
             as [[Heq Hall]|(k & x & Hk & Heq & Hel & Hlt' & Hall)].
           ++ left. split; [exact Heq|]. intros [|k'] y Hk' Hel'.
              ** inversion Hk'; subst. destruct Hel' as [_ Hel']. congruence.
              ** apply (Hall k' y Hk' Hel').
           ++ right. exists (S k), x. rewrite Heq.
              split; [exact Hk|]. split; [f_equal; f_equal; lia|].
              split; [exact Hel|]. split; [exact Hlt'|].
              intros [|k'] y Hk' Hel'.
              ** inversion Hk'; subst. destruct Hel' as [_ Hel']. congruence.
              ** apply (Hall k' y Hk' Hel').
      * destruct (IH (S i) m origin flag)
          as [[Heq Hall]|(k & x & Hk & Heq & Hel & Hlt' & Hall)].
        -- left. split; [exact Heq|]. intros [|k'] y Hk' Hel'.
           ++ inversion Hk'; subst. exact Hlt.
           ++ apply (Hall k' y Hk' Hel').
        -- right. exists (S k), x. rewrite Heq.
           split; [exact Hk|]. split; [f_equal; f_equal; lia|].
           split; [exact Hel|]. split; [exact Hlt'|].
           intros [|k'] y Hk' Hel'.
           ++ inversion Hk'; subst.
              destruct (F32.ltb (total_cost_ y) (total_cost_ x)) eqn:Hyx;
                [|reflexivity].
              pose proof (ltb_trans _ _ _ Hyx Hlt'). congruence.
           ++ apply (Hall k' y Hk' Hel').
    + destruct (IH (S i) m origin flag)
        as [[Heq Hall]|(k & x & Hk & Heq & Hel & Hlt' & Hall)].
      * left. split; [exact Heq|]. intros [|k'] y Hk' Hel'.
        -- inversion Hk'; subst. destruct Hel' as [Hc _].
           rewrite Hc in Hopen. discriminate.
        -- apply (Hall k' y Hk' Hel').
      * right. exists (S k), x. rewrite Heq.
        split; [exact Hk|]. split; [f_equal; f_equal; lia|].
        split; [exact Hel|]. split; [exact Hlt'|].
        intros [|k'] y Hk' Hel'.
        -- inversion Hk'; subst. destruct Hel' as [Hc _].
           rewrite Hc in Hopen. discriminate.
        -- apply (Hall k' y Hk' Hel').
Qed.

Lemma tree_shape_parent tree i nd :
  tree_shape sp tree -> tree !! i = Some nd ->
  exists p, tree !! origin_ nd = Some p.
Proof.
  intros [Hroot Hchild _] Hnd. destruct i as [|i].
  - destruct Hroot as (root & Hr & Ho & _). rewrite Hr in Hnd.
    inversion Hnd; subst. exists nd. rewrite Ho. exact Hr.
  - destruct (Hchild (S i) nd Hnd ltac:(lia)) as (_ & p & _ & Hp & _).
    exists p. exact Hp.
Qed.

Lemma tree_shape_origin_lt tree i nd :
  tree_shape sp tree -> tree !! i = Some nd -> origin_ nd < length tree.
Proof.
  intros Hs Hnd. destruct (tree_shape_parent _ _ _ Hs Hnd) as [p Hp].
  eapply lookup_lt_Some, Hp.
Qed.

Lemma close_origin_static o nd : same_static nd (close_origin sp o nd).
Proof.
  unfold close_origin.
  destruct (candidates_at sp (getPosition o) (getVelocity o)); repeat split.
Qed.

Lemma close_origin_closed o nd : closed_ (close_origin sp o nd) = true.
Proof. reflexivity. Qed.

Lemma state_after_round_tree s o new :
  (candidates_at sp (getPosition o) (getVelocity o) = [] -> new = []) ->
  ls_tree (state_after_round sp s o new)
  = alter (close_origin sp o) (ls_origin s) (ls_tree s ++ new).
Proof.
  intros Hnil. unfold state_after_round, tree_after_candidates, close_origin.
  simpl.
  destruct (candidates_at sp (getPosition o) (getVelocity o)) as [|c rest].
  - rewrite (Hnil eq_refl), app_nil_r.
    rewrite list_alter_alter_eq. reflexivity.
  - reflexivity.
Qed.

Lemma state_after_round_origin s o new :
  ls_origin (state_after_round sp s o new)
  = snd (fst (find_best_node (position_ sp) (max_path_length_ sp)
                (ls_tree (state_after_round sp s o new)) 0 F32.HUGE_VAL
                (ls_origin s) false)).
Proof. reflexivity. Qed.

Lemma state_after_round_flag s o new :
  ls_is_expanded_node (state_after_round sp s o new)
  = snd (find_best_node (position_ sp) (max_path_length_ sp)
           (ls_tree (state_after_round sp s o new)) 0 F32.HUGE_VAL
           (ls_origin s) false).
Proof. reflexivity. Qed.

Lemma state_after_round_closed_set s o new :
  ls_closed_set (state_after_round sp s o new)
  = ls_closed_set s ++ [ls_origin s].
Proof. reflexivity. Qed.

Lemma children_from_lookup origin o parent new k nd :
  children_from sp origin o parent new -> new !! k = Some nd ->
  closed_ nd = false /\ origin_ nd = origin.
Proof.
  intros Hall Hk. destruct (Forall_lookup_1 _ _ _ _ Hall Hk) as (c & _ & ->).
  split; reflexivity.
Qed.

Lemma children_from_weaken origin o parent new :
  children_from sp origin o parent new ->
  Forall (fun nd => exists candidate,
            nd = child_node sp origin o parent candidate) new.
Proof.
  intros Hall. eapply Forall_impl; [exact Hall|].
  intros nd (c & _ & ->). exists c. reflexivity.
Qed.

(** The nodes of the tree after a round: the origin is closed, the other
    nodes of the tree are as they were, and the new nodes follow. *)
Lemma lookup_after_round tree origin o new i nd' :
  tree !! origin = Some o ->
  alter (close_origin sp o) origin (tree ++ new) !! i = Some nd' ->
  (i = origin /\ nd' = close_origin sp o o) \/
  (i <> origin /\ i < length tree /\ tree !! i = Some nd') \/
  (length tree <= i /\ new !! (i - length tree) = Some nd').
Proof.
  intros Ho Hi. pose proof (lookup_lt_Some _ _ _ Ho) as Hlt.
  rewrite list_lookup_alter in Hi. destruct (decide (origin = i)) as [->|Hne].
  - left. rewrite (lookup_app_l_Some _ _ _ _ Ho) in Hi. simpl in Hi.
    split; [reflexivity|congruence].
  - right. destruct (decide (i < length tree)) as [Hin|Hout].
    + left. rewrite lookup_app_l in Hi by exact Hin.
      split; [congruence|]. split; assumption.
    + right. rewrite lookup_app_r in Hi by lia. split; [lia|exact Hi].
Qed.

(** A round of the expansion loop keeps the bookkeeping of the loop. *)
Lemma loop_inv_round s :
  loop_inv sp s -> ls_is_expanded_node s = true ->
  exists o new,
    ls_tree s !! ls_origin s = Some o /\ closed_ o = false /\
    expand_origin sp s = Some (state_after_round sp s o new) /\
    loop_inv sp (state_after_round sp s o new) /\
    ls_tree (state_after_round sp s o new)
    = alter (close_origin sp o) (ls_origin s) (ls_tree s ++ new) /\
    (Z.of_nat (length new) <= Z.max 0 (children_per_node_ sp))%Z.
Proof.
  intros [Hshape Horigin Hopen Hclosed Hnodup Hchildren] Hflag.
  destruct (Hopen Hflag) as (o & Ho & Hoc).
  destruct (tree_shape_parent _ _ _ Hshape Ho) as [parent Hp].
  destruct (expand_origin_eq s o parent Ho Hp)
    as (new & Heq & Hall & Hacc & Hle & Hnil).
  exists o, new.
  pose proof (state_after_round_tree s o new Hnil) as Htree.
  split; [exact Ho|]. split; [exact Hoc|]. split; [exact Heq|].
  split; [|split; [exact Htree|exact Hle]].
  assert (Hmid : tree_shape sp (ls_tree s ++ new)).
  { exact (tree_shape_app (ls_origin s) o parent new _ Hshape Ho Hp
             (children_from_weaken _ _ _ _ Hall) Hacc). }
  assert (Hshape' : tree_shape sp (ls_tree (state_after_round sp s o new))).
  { rewrite Htree. eapply tree_shape_static; [|exact Hmid].
    apply alter_same_static. intros nd. apply close_origin_static. }
  assert (Hne : ls_tree s <> []).
  { intros Hnil'. rewrite Hnil' in Ho. inversion Ho. }
  assert (Hsel :
    ls_origin (state_after_round sp s o new)
    < length (ls_tree (state_after_round sp s o new)) /\
    (ls_is_expanded_node (state_after_round sp s o new) = true ->
     exists o', ls_tree (state_after_round sp s o new)
                !! ls_origin (state_after_round sp s o new) = Some o' /\
                closed_ o' = false)).
  { rewrite state_after_round_origin, state_after_round_flag.
    destruct (find_best_node_spec (ls_tree (state_after_round sp s o new)) 0
                F32.HUGE_VAL (ls_origin s) false)
      as [[Hb _]|(k & x & Hk & Hb & Hel & _)]; rewrite Hb; cbn [fst snd].
    - split; [|discriminate].
      rewrite Htree, length_alter, length_app. lia.
    - split; [eapply lookup_lt_Some, Hk|].
      intros _. exists x. split; [exact Hk|apply Hel]. }
  destruct Hsel as [Horigin' Hopen'].
  split; try assumption.
  - (* the closed set *)
    intros i. rewrite state_after_round_closed_set, elem_of_app,
      list_elem_of_singleton, Htree. split.
    + intros [Hin| ->].
      * apply Hclosed in Hin as (nd & Hnd & Hc).
        rewrite list_lookup_alter. destruct (decide (ls_origin s = i)) as [Hd|Hd].
        -- rewrite <- Hd, Ho in Hnd. inversion Hnd; subst. congruence.
        -- exists nd. split; [apply lookup_app_l_Some, Hnd|exact Hc].
      * exists (close_origin sp o o). rewrite list_lookup_alter_eq.
        rewrite (lookup_app_l_Some _ _ _ _ Ho). split; reflexivity.
    + intros (nd' & Hnd' & Hc).
      destruct (lookup_after_round _ _ _ _ _ _ Ho Hnd')
        as [[-> _]|[(Hd & Hlt & Hnd)|(Hge & Hnd)]].
      * right. reflexivity.
      * left. apply Hclosed. exists nd'. split; assumption.
      * destruct (children_from_lookup _ _ _ _ _ _ Hall Hnd) as [Hcf _].
        congruence.
  - (* no node is closed twice *)
    rewrite state_after_round_closed_set. apply NoDup_app.
    split; [exact Hnodup|]. split; [|apply NoDup_singleton].
    intros x Hx Hx'. apply list_elem_of_singleton in Hx'. subst x.
    apply Hclosed in Hx as (nd & Hnd & Hc). rewrite Ho in Hnd.
    inversion Hnd; subst. congruence.
  - (* the children of each node *)
    intros i nd' Hnd'. rewrite Htree in Hnd' |- *.
    rewrite <- (children_of_static (ls_tree s ++ new))
      by (apply alter_same_static; intros nd; apply close_origin_static).
    rewrite (children_of_app _ _ _ Hne).
    assert (Hnew : Forall (fun nd => origin_ nd = ls_origin s) new).
    { apply Forall_lookup. intros k x Hk.
      apply (children_from_lookup _ _ _ _ _ _ Hall Hk). }
    destruct (lookup_after_round _ _ _ _ _ _ Ho Hnd')
      as [[-> ->]|[(Hd & Hlt & Hnd)|(Hge & Hnd)]].
    + rewrite (filter_origin_all _ _ Hnew).
      destruct (Hchildren _ _ Ho) as [_ Hzero]. rewrite (Hzero Hoc).
      split; [simpl; lia|]. rewrite close_origin_closed. discriminate.
    + rewrite filter_origin_none.
      * rewrite Nat.add_0_r. apply (Hchildren _ _ Hnd).
      * eapply Forall_impl; [exact Hnew|]. simpl. intros x ->. congruence.
    + rewrite filter_origin_none.
      * rewrite Nat.add_0_r. rewrite children_of_none; [split; [lia|reflexivity]|].
        apply Forall_lookup. intros k x Hk.
        pose proof (tree_shape_origin_lt _ _ _ Hshape Hk). lia.
      * eapply Forall_impl; [exact Hnew|]. simpl. intros x ->. lia.
Qed.

(** *** The first node *)

Lemma initial_tree_eq : initial_tree sp = Some [root_node sp].
Proof. reflexivity. Qed.

Lemma expanded_eq :
  expanded sp
  = expansion_loop sp (Z.to_nat (n_expanded_nodes_ sp)) (initial_state sp).
Proof. reflexivity. Qed.

Lemma tree_shape_initial : tree_shape sp [root_node sp].
Proof.
  split.
  - exists (root_node sp). repeat split.
  - intros [|i] nd Hnd Hi; [lia|]. inversion Hnd.
  - intros i [|j] ni nj Hij Hi Hj; [lia|]. inversion Hj.
Qed.

Lemma loop_inv_initial : loop_inv sp (initial_state sp).
Proof.
  split; simpl.
  - apply tree_shape_initial.
  - lia.
  - intros _. exists (root_node sp). split; reflexivity.
  - intros i. split.
    + intros Hi. inversion Hi.
    + intros (nd & Hnd & Hc). destruct i as [|i]; [|inversion Hnd].
      inversion Hnd; subst. discriminate.
  - constructor.
  - intros [|i] nd Hnd; [|inversion Hnd].
    split; [unfold children_of; simpl; lia|reflexivity].
Qed.

(** *** The expansion loop *)

(** The loop returns, keeps its bookkeeping, closes at most one node a
    round and inserts at most [children_per_node_] nodes a round. *)
Lemma expansion_loop_spec budget :
  forall s, loop_inv sp s ->
    exists s', expansion_loop sp budget s = Some s' /\ loop_inv sp s' /\
      length (ls_closed_set s') <= length (ls_closed_set s) + budget /\
      (Z.of_nat (length (ls_tree s'))
       <= Z.of_nat (length (ls_tree s))
          + Z.of_nat budget * Z.max 0 (children_per_node_ sp))%Z.
Proof.
  induction budget as [|budget IH]; intros s Hinv.
  - exists s. simpl. split; [reflexivity|]. split; [exact Hinv|]. split; lia.
  - simpl. destruct (ls_is_expanded_node s) eqn:Hflag.
    + destruct (loop_inv_round s Hinv Hflag)
        as (o & new & Ho & Hoc & Heq & Hinv' & Htree & Hle).
      rewrite Heq. simpl.
      destruct (IH _ Hinv') as (s' & Hs' & Hinv'' & Hc & Ht).
      exists s'. split; [exact Hs'|]. split; [exact Hinv''|].
      rewrite state_after_round_closed_set, length_app in Hc. simpl in Hc.
      rewrite Htree, length_alter, length_app in Ht.
      split; lia.
    + exists s. split; [reflexivity|]. split; [exact Hinv|]. split; lia.
Qed.

(** *** The backtracking loop *)

Lemma backtrack_spec tree :
  tree_shape sp tree ->
  forall n i, i <= n -> i < length tree ->
    exists l ps,
      parent_chain tree i (l ++ [0]) /\
      positions_of tree l = Some <$> ps /\
      forall fuel origins positions, i <= fuel ->
        backtrack fuel tree i origins positions
        = Some (origins ++ l, positions ++ ps).
Proof.
  intros Hshape. induction n as [|n IH]; intros i Hi Hlen.
  - assert (i = 0) as -> by lia. exists [], []. split; [constructor|].
    split; [reflexivity|]. intros fuel origins positions _.
    destruct fuel; simpl; rewrite !app_nil_r; reflexivity.
  - destruct i as [|i].
    + exists [], []. split; [constructor|].
      split; [reflexivity|]. intros fuel origins positions _.
      destruct fuel; simpl; rewrite !app_nil_r; reflexivity.
    + destruct (lookup_lt_is_Some_2 _ _ Hlen) as [nd Hnd].
      destruct (shape_child _ _ Hshape (S i) nd Hnd ltac:(lia)) as (Hlt & _).
      destruct (IH (origin_ nd) ltac:(lia) ltac:(lia)) as (l & ps & Hl & Hps & Hb).
      exists (S i :: l), (getPosition nd :: ps).
      split; [simpl; econstructor; eassumption|].
      split.
      { unfold positions_of. rewrite !fmap_cons. rewrite Hnd. simpl.
        f_equal. exact Hps. }
      intros [|fuel] origins positions Hfuel; [lia|].
      simpl. rewrite Hnd. simpl. rewrite Hb by lia.
      rewrite <- !app_assoc. reflexivity.
Qed.

(** *** A root without children *)

Lemma barren_root :
  (children_per_node_ sp <= 0)%Z \/
  candidates_at sp (position_ sp) (velocity_ sp) = [] ->
  expand_origin sp (initial_state sp)
  = Some (mkLoopState [close_origin sp (root_node sp) (root_node sp)] [0] 0
            false).
Proof.
  intros Hcase.
  destruct (expand_origin_eq (initial_state sp) (root_node sp) (root_node sp)
              eq_refl eq_refl) as (new & Heq & _ & _ & Hle & Hnil).
  assert (new = []) as ->.
  { destruct Hcase as [Hc|Hc]; [|exact (Hnil Hc)].
    destruct new; [reflexivity|]. simpl in Hle. lia. }
  rewrite Heq. f_equal.
  unfold state_after_round, tree_after_candidates, close_origin. simpl.
  destruct (candidates_at sp (position_ sp) (velocity_ sp)); reflexivity.
Qed.

Lemma parent_chain_unique tree i chain :
  parent_chain tree i chain ->
  forall chain', parent_chain tree i chain' -> chain = chain'.
Proof.
  induction 1 as [|i nd l Hnd _ IH]; intros chain' Hc'.
  - inversion Hc'. reflexivity.
  - inversion Hc' as [|i' nd' l' Hnd' Hl']; subst.
    rewrite Hnd in Hnd'. inversion Hnd'; subst nd'.
    f_equal. apply IH, Hl'.
Qed.

Lemma parent_chain_head tree i chain :
  parent_chain tree i chain -> head chain = Some i.
Proof. intros Hc. inversion Hc; reflexivity. Qed.

(** *** The whole call *)

(** [buildLookAheadTree] returns: no access leaves the tree and the
    backtracking loop ends within the rounds it is given.  The result
    holds the tree and the closed set of the expansion loop, and the path
    is the chain of parents of the last origin followed by node 0. *)
Lemma buildLookAheadTree_spec :
  exists s l ps root sp',
    expanded sp = Some s /\ loop_inv sp s /\
    length (ls_closed_set s) <= Z.to_nat (n_expanded_nodes_ sp) /\
    (Z.of_nat (length (ls_tree s))
     <= 1 + Z.of_nat (Z.to_nat (n_expanded_nodes_ sp))
            * Z.max 0 (children_per_node_ sp))%Z /\
    parent_chain (ls_tree s) (ls_origin s) (l ++ [0]) /\
    positions_of (ls_tree s) l = Some <$> ps /\
    ls_tree s !! 0 = Some root /\
    buildLookAheadTree sp = Some sp' /\
    tree_ sp' = ls_tree s /\
    closed_set_ sp' = ls_closed_set s /\
    path_node_origins_ sp' = l ++ [0] /\
    path_node_positions_ sp' = ps ++ [getPosition root] /\
    tree_age_ sp' = 0%Z /\
    same_inputs sp sp'.
Proof.
  destruct (expansion_loop_spec (Z.to_nat (n_expanded_nodes_ sp))
              (initial_state sp) loop_inv_initial)
    as (s & Hs & Hinv & Hc & Ht).
  simpl in Hc, Ht.
  destruct (backtrack_spec (ls_tree s) (inv_shape _ _ Hinv) (ls_origin s)
              (ls_origin s) (le_n _) (inv_origin _ _ Hinv))
    as (l & ps & Hl & Hps & Hb).
  destruct (shape_root _ _ (inv_shape _ _ Hinv)) as (root & Hr & _).
  exists s, l, ps, root.
  unfold buildLookAheadTree. rewrite expanded_eq, Hs. simpl.
  rewrite (Hb (length (ls_tree s)) [] []) by (pose proof (inv_origin _ _ Hinv); lia).
  simpl. rewrite Hr. simpl.
  eexists. split; [reflexivity|]. split; [exact Hinv|].
  split; [exact Hc|]. split; [exact Ht|]. split; [exact Hl|].
  split; [exact Hps|]. split; [reflexivity|]. split; [reflexivity|].
  simpl. repeat split.
Qed.

Lemma buildLookAheadTree_returns :
  buildLookAheadTree sp = Some (default sp (buildLookAheadTree sp)).
Proof.
  destruct buildLookAheadTree_spec
    as (s & l & ps & root & sp' & _ & _ & _ & _ & _ & _ & _ & Hb & _).
  rewrite Hb. reflexivity.
Qed.

End Expansion.

(** ** Accepted nodes keep their distance *)

Lemma each_accepted_lookup (new : list TreeNode) :
  forall tree k nk i ni,
    each_accepted tree new ->
    new !! k = Some nk ->
    (tree ++ new) !! i = Some ni ->
    i < length tree + k ->
    within_threshold (getPosition ni) (getPosition nk) = false.
Proof.
  induction new as [|nd rest IH]; intros tree k nk i ni Hacc Hk Hi Hlt.
  - inversion Hk.
  - destruct Hacc as [Hfar Hacc]. destruct k as [|k].
    + inversion Hk; subst nk. rewrite lookup_app_l in Hi by lia.
      apply (proj1 (count_close_nodes_zero _ _) Hfar).
      apply list_elem_of_lookup. exists i. exact Hi.
    + simpl in Hk. rewrite cons_middle, app_assoc in Hi.
      apply (IH (tree ++ [nd]) k nk i ni Hacc Hk Hi).
      rewrite length_app. simpl. lia.
Qed.



(** ** The properties of the look-ahead tree *)

Section Claims.

Context `{Collaborators}.

Variable sp : StarPlanner.

(** C6: after a call, node 0 is its own parent and has depth 0; when it is
    built its accumulated cost is its heuristic, the distance from the
    start position to the goal; and the path ends with the position of
    node 0, which is the start position. *)
Theorem root_invariant :
  exists sp' root first,
    buildLookAheadTree sp = Some sp' /\
    tree_ sp' !! 0 = Some root /\
    origin_ root = 0 /\ depth_ root = 0%Z /\
    getPosition root = position_ sp /\
    initial_tree sp = Some [first] /\
    total_cost_ first = heuristic_ first /\
    heuristic_ first = norm (vsub (goal_ sp) (position_ sp)) /\
    last (path_node_positions_ sp') = Some (getPosition root) /\
    last (path_node_origins_ sp') = Some 0.
Proof.
  destruct (buildLookAheadTree_spec sp)
    as (s & l & ps & root & sp' & _ & Hinv & _ & _ & _ & _ & Hr & Hb & Ht & _
        & Ho & Hp & _).
  exists sp', root, (root_node sp).
  split; [exact Hb|]. rewrite Ht, Ho, Hp, !last_snoc.
  destruct (shape_root _ _ (inv_shape _ _ Hinv))
    as (root' & Hr' & Hor & Hd & Hpos & _).
  rewrite Hr in Hr'. inversion Hr'; subst root'.
  repeat split; assumption.
Qed.

(** C7: in the tree a call produces, every node but node 0 has a parent
    with a smaller index and a depth one above the depth of its parent;
    so the parent links lead from every node to node 0, and the
    backtracking loop started at a node [i] ends within [i] rounds. *)
Theorem parents_form_a_tree :
  exists sp',
    buildLookAheadTree sp = Some sp' /\
    (forall i nd, tree_ sp' !! i = Some nd -> 0 < i ->
       origin_ nd < i /\
       exists p, tree_ sp' !! origin_ nd = Some p /\
                 depth_ nd = (depth_ p + 1)%Z) /\
    (forall i, i < length (tree_ sp') ->
       exists l ps,
         parent_chain (tree_ sp') i (l ++ [0]) /\
         forall fuel, i <= fuel ->
           backtrack fuel (tree_ sp') i [] [] = Some (l, ps)).
Proof.
  destruct (buildLookAheadTree_spec sp)
    as (s & l & ps & root & sp' & _ & Hinv & _ & _ & _ & _ & _ & Hb & Ht & _).
  exists sp'. split; [exact Hb|]. rewrite Ht.
  pose proof (inv_shape _ _ Hinv) as Hshape. split.
  - intros i nd Hnd Hi.
    destruct (shape_child _ _ Hshape i nd Hnd Hi)
      as (Hlt & p & _ & Hp & _ & Hd & _).
    split; [exact Hlt|]. exists p. split; assumption.
  - intros i Hi.
    destruct (backtrack_spec sp _ Hshape i i (le_n _) Hi) as (l' & ps' & Hl & _ & Hk).
    exists l', ps'. split; [exact Hl|]. intros fuel Hfuel.
    apply (Hk fuel [] [] Hfuel).
Qed.

(** C10: the velocity stored in a node other than node 0 is the velocity
    of the parent of its parent plus the displacement from its parent to
    it; for a child of node 0 that is the velocity of the vehicle plus
    the displacement from the start position. *)
Theorem velocity_from_grandparent :
  exists sp',
    buildLookAheadTree sp = Some sp' /\
    forall i nd, tree_ sp' !! i = Some nd -> 0 < i ->
      exists p grandparent,
        tree_ sp' !! origin_ nd = Some p /\
        tree_ sp' !! origin_ p = Some grandparent /\
        getVelocity nd
        = vadd (getVelocity grandparent)
            (vsub (getPosition nd) (getPosition p)) /\
        (origin_ nd = 0 ->
         getVelocity nd
         = vadd (velocity_ sp) (vsub (getPosition nd) (position_ sp))).
Proof.
  destruct (buildLookAheadTree_spec sp)
    as (s & l & ps & root & sp' & _ & Hinv & _ & _ & _ & _ & _ & Hb & Ht & _).
  exists sp'. split; [exact Hb|]. rewrite Ht.
  pose proof (inv_shape _ _ Hinv) as Hshape.
  intros i nd Hnd Hi.
  destruct (shape_child _ _ Hshape i nd Hnd Hi)
    as (_ & p & g & Hp & Hg & _ & Hv & _).
  exists p, g. split; [exact Hp|]. split; [exact Hg|]. split; [exact Hv|].
  intros H0. rewrite H0 in Hp.
  destruct (shape_root _ _ Hshape) as (r & Hr & Hor & _ & Hpos & Hvel & _).
  rewrite Hr in Hp. inversion Hp; subst p. rewrite Hor, Hr in Hg.
  inversion Hg; subst g. rewrite Hv, Hvel, Hpos. reflexivity.
Qed.

(** C1: the nodes a round of the expansion loop inserts are children of
    the origin of the round, each built from a candidate proposed at the
    origin; the accumulated cost of such a child is the accumulated cost
    of the origin minus the heuristic of the origin, plus the cost of the
    new edge, plus the heuristic of the child, which is the distance from
    the child to the goal.  The round leaves the two costs of the origin
    as they were. *)
Theorem child_cost (s s' : LoopState) :
  expand_origin sp s = Some s' ->
  forall i nd, length (ls_tree s) <= i -> ls_tree s' !! i = Some nd ->
    exists o o' candidate,
      ls_tree s !! ls_origin s = Some o /\
      ls_tree s' !! origin_ nd = Some o' /\
      origin_ nd = ls_origin s /\
      total_cost_ o' = total_cost_ o /\ heuristic_ o' = heuristic_ o /\
      candidate ∈ candidates_at sp (getPosition o) (getVelocity o) /\
      getPosition nd = child_location sp (getPosition o) candidate /\
      heuristic_ nd = norm (vsub (goal_ sp) (getPosition nd)) /\
      total_cost_ nd
      = F32.add
          (F32.add (F32.sub (total_cost_ o) (heuristic_ o))
             (edge_cost sp (getPosition o) (getVelocity nd) candidate))
          (heuristic_ nd).
Proof.
  intros He i nd Hi Hnd.
  destruct (expand_origin_inv sp s s' He)
    as (o & new & Ho & -> & Hnil & _ & _ & Hnew).
  rewrite (state_after_round_tree sp s o new Hnil) in Hnd |- *.
  pose proof (lookup_lt_Some _ _ _ Ho) as Hlt.
  destruct (lookup_after_round sp _ _ _ _ _ _ Ho Hnd)
    as [[-> _]|[(_ & Hlt' & _)|(_ & Hk)]]; [lia|lia|].
  assert (Hne : new <> []) by (intros ->; inversion Hk).
  destruct (Hnew Hne) as (parent & Hp & Hall).
  destruct (Forall_lookup_1 _ _ _ _ Hall Hk) as (candidate & Hc & ->).
  exists o, (close_origin sp o o), candidate. simpl.
  split; [exact Ho|].
  split; [rewrite list_lookup_alter_eq, (lookup_app_l_Some _ _ _ _ Ho);
          reflexivity|].
  split; [reflexivity|].
  unfold close_origin.
  destruct (candidates_at sp (getPosition o) (getVelocity o)) as [|c rest] eqn:Hcs;
    [inversion Hc|].
  repeat split. exact Hc.
Qed.

(** C4: a node inserted in a round of the expansion loop is not within
    the proximity threshold of any node before it in the tree, the nodes
    inserted earlier in the same round included; so, in the tree a call
    produces, no two distinct nodes are within the threshold of each
    other. *)
Theorem nodes_keep_their_distance :
  (forall s s', expand_origin sp s = Some s' ->
     forall i j ni nj,
       length (ls_tree s) <= j -> i < j ->
       ls_tree s' !! i = Some ni -> ls_tree s' !! j = Some nj ->
       within_threshold (getPosition ni) (getPosition nj) = false) /\
  (exists sp',
     buildLookAheadTree sp = Some sp' /\
     forall i j ni nj,
       i <> j -> tree_ sp' !! i = Some ni -> tree_ sp' !! j = Some nj ->
       within_threshold (getPosition ni) (getPosition nj) = false).
Proof.
  split.
  - intros s s' He i j ni nj Hj Hij Hi Hnj.
    destruct (expand_origin_inv sp s s' He)
      as (o & new & Ho & -> & Hnil & _ & Hacc & _).
    rewrite (state_after_round_tree sp s o new Hnil) in Hi, Hnj.
    pose proof (alter_same_static (close_origin sp o) (ls_origin s)
                  (ls_tree s ++ new) (close_origin_static sp o)) as HF.
    destruct (Forall2_lookup_r _ _ _ _ _ HF Hi) as (ni0 & Hi0 & Hsi).
    destruct (Forall2_lookup_r _ _ _ _ _ HF Hnj) as (nj0 & Hj0 & Hsj).
    destruct Hsi as (_ & _ & <- & _). destruct Hsj as (_ & _ & <- & _).
    rewrite lookup_app_r in Hj0 by exact Hj.
    apply (each_accepted_lookup new (ls_tree s) (j - length (ls_tree s)) nj0
             i ni0 Hacc Hj0 Hi0).
    lia.
  - destruct (buildLookAheadTree_spec sp)
      as (s & l & ps & root & sp' & _ & Hinv & _ & _ & _ & _ & _ & Hb & Ht & _).
    exists sp'. split; [exact Hb|]. rewrite Ht.
    pose proof (shape_apart _ _ (inv_shape _ _ Hinv)) as Hapart.
    intros i j ni nj Hij Hi Hj.
    destruct (decide (i < j)) as [Hlt|Hge].
    + exact (Hapart i j ni nj Hlt Hi Hj).
    + rewrite within_threshold_sym.
      apply (Hapart j i nj ni ltac:(lia) Hj Hi).
Qed.

(** C2, as amended: the path is the chain of parents of the last origin,
    the last origin first and node 0 last, each index with the position
    of its node. *)
Theorem path_follows_parents :
  exists s sp' chain,
    expanded sp = Some s /\
    buildLookAheadTree sp = Some sp' /\
    tree_ sp' = ls_tree s /\
    parent_chain (ls_tree s) (ls_origin s) chain /\
    path_node_origins_ sp' = chain /\
    Some <$> path_node_positions_ sp' = positions_of (ls_tree s) chain /\
    head chain = Some (ls_origin s) /\
    last chain = Some 0.
Proof.
  destruct (buildLookAheadTree_spec sp)
    as (s & l & ps & root & sp' & Hs & _ & _ & _ & Hl & Hps & Hr & Hb & Ht & _
        & Ho & Hp & _).
  exists s, sp', (l ++ [0]).
  split; [exact Hs|]. split; [exact Hb|]. split; [exact Ht|].
  split; [exact Hl|]. split; [exact Ho|].
  split.
  { rewrite Hp. unfold positions_of. rewrite !fmap_app, <- Hps. simpl.
    rewrite Hr. reflexivity. }
  split; [exact (parent_chain_head _ _ _ Hl)|apply last_snoc].
Qed.

(** C5, as amended: a call closes at most [max 0 n_expanded_nodes_]
    nodes, no node gets more than [max 0 children_per_node_] children,
    and the tree holds at most one node more than the product of the
    two. *)
Theorem budget_bound :
  exists sp',
    buildLookAheadTree sp = Some sp' /\
    (Z.of_nat (length (closed_set_ sp')) <= Z.max 0 (n_expanded_nodes_ sp))%Z /\
    (forall o,
       (Z.of_nat (children_of (tree_ sp') o)
        <= Z.max 0 (children_per_node_ sp))%Z) /\
    (Z.of_nat (length (tree_ sp'))
     <= 1 + Z.max 0 (n_expanded_nodes_ sp) * Z.max 0 (children_per_node_ sp))%Z.
Proof.
  destruct (buildLookAheadTree_spec sp)
    as (s & l & ps & root & sp' & _ & Hinv & Hc & Hn & _ & _ & _ & Hb & Ht
        & Hcs & _).
  exists sp'. split; [exact Hb|]. rewrite Ht, Hcs.
  assert (Hmax : Z.of_nat (Z.to_nat (n_expanded_nodes_ sp))
                 = Z.max 0 (n_expanded_nodes_ sp)) by lia.
  rewrite Hmax in Hn.
  split; [lia|]. split; [|exact Hn].
  intros o. destruct (ls_tree s !! o) as [nd|] eqn:Ho.
  - destruct (inv_children _ _ Hinv o nd Ho) as [Hle _]. lia.
  - rewrite children_of_none; [lia|].
    apply Forall_lookup. intros k x Hk.
    pose proof (tree_shape_origin_lt sp _ _ _ (inv_shape _ _ Hinv) Hk).
    apply lookup_ge_None in Ho. lia.
Qed.

(** C8: when the expansion budget or the branching factor is not
    positive, or when no candidate is proposed at the start position, the
    path holds the start position alone; and when a round is run on a
    root without candidates, the tree is the root alone, closed and with
    an infinite total cost. *)
Theorem degenerate_path :
  (n_expanded_nodes_ sp <= 0)%Z \/ (children_per_node_ sp <= 0)%Z \/
  candidates_at sp (position_ sp) (velocity_ sp) = [] ->
  exists sp',
    buildLookAheadTree sp = Some sp' /\
    path_node_positions_ sp' = [position_ sp] /\
    path_node_origins_ sp' = [0] /\
    ((0 < n_expanded_nodes_ sp)%Z ->
     candidates_at sp (position_ sp) (velocity_ sp) = [] ->
     exists root,
       tree_ sp' = [root] /\ total_cost_ root = F32.HUGE_VAL /\
       closed_ root = true /\ closed_set_ sp' = [0]).
Proof.
  intros Hcase.
  destruct (Z.to_nat (n_expanded_nodes_ sp)) as [|budget] eqn:Hn.
  - eexists. unfold buildLookAheadTree. rewrite expanded_eq, Hn. simpl.
    split; [reflexivity|]. split; [reflexivity|]. split; [reflexivity|].
    intros Hpos. lia.
  - assert (Hbarren : (children_per_node_ sp <= 0)%Z \/
                      candidates_at sp (position_ sp) (velocity_ sp) = []).
    { destruct Hcase as [Hc|[Hc|Hc]]; [lia|left; exact Hc|right; exact Hc]. }
    eexists. unfold buildLookAheadTree. rewrite expanded_eq, Hn.
    cbn [expansion_loop initial_state ls_is_expanded_node].
    fold (initial_state sp). rewrite (barren_root sp Hbarren).
    assert (Hloop : expansion_loop sp budget
              (mkLoopState [close_origin sp (root_node sp) (root_node sp)]
                 [0] 0 false)
            = Some (mkLoopState
                      [close_origin sp (root_node sp) (root_node sp)]
                      [0] 0 false))
      by (destruct budget; reflexivity).
    cbn [mbind option_bind]. rewrite Hloop. simpl.
    split; [reflexivity|].
    split.
    { unfold close_origin.
      destruct (candidates_at sp (position_ sp) (velocity_ sp)); reflexivity. }
    split; [reflexivity|].
    intros _ Hnone. eexists. split; [reflexivity|].
    unfold close_origin. simpl. rewrite Hnone. repeat split.
Qed.

End Claims.

(** ** What a call depends on *)

Section Determinism.

Context `{Collaborators}.

Variables sp1 sp2 : StarPlanner.

Hypothesis Hsame : same_inputs sp1 sp2.

Lemma insert_candidate_inputs origin depth origin_position histogram acc
    candidate :
  insert_candidate sp1 origin depth origin_position histogram acc candidate
  = insert_candidate sp2 origin depth origin_position histogram acc candidate.
Proof.
  destruct Hsame as (Hc & _ & Hd & _ & _ & _ & _ & Hg & _ & Hp & _).
  unfold insert_candidate. rewrite Hc, Hd, Hg, Hp. reflexivity.
Qed.

Lemma insert_candidates_inputs origin depth origin_position histogram
    candidates :
  forall acc,
    insert_candidates sp1 origin depth origin_position histogram candidates acc
    = insert_candidates sp2 origin depth origin_position histogram candidates
        acc.
Proof.
  induction candidates as [|candidate rest IH]; intros acc; [reflexivity|].
  simpl. rewrite insert_candidate_inputs.
  destruct (insert_candidate sp2 origin depth origin_position histogram acc
              candidate) as [acc'|]; simpl; [apply IH|reflexivity].
Qed.

Lemma candidates_at_inputs origin_position origin_velocity :
  candidates_at sp1 origin_position origin_velocity
  = candidates_at sp2 origin_position origin_velocity.
Proof.
  destruct Hsame as (Hc & _ & _ & _ & Hm & _ & _ & Hg & _ & Hp & Hcl).
  unfold candidates_at. rewrite Hc, Hm, Hg, Hp, Hcl. reflexivity.
Qed.

Lemma expand_origin_inputs s : expand_origin sp1 s = expand_origin sp2 s.
Proof.
  unfold expand_origin.
  destruct (ls_tree s !! ls_origin s) as [o|]; [|reflexivity]. simpl.
  rewrite candidates_at_inputs.
  destruct Hsame as (_ & _ & _ & Hl & _ & Hpos & _ & _ & _ & _ & Hcl).
  rewrite Hl, Hpos, Hcl.
  destruct (candidates_at sp2 (getPosition o) (getVelocity o)); [reflexivity|].
  rewrite insert_candidates_inputs. reflexivity.
Qed.

Lemma expansion_loop_inputs budget :
  forall s, expansion_loop sp1 budget s = expansion_loop sp2 budget s.
Proof.
  induction budget as [|budget IH]; intros s; [reflexivity|].
  simpl. destruct (ls_is_expanded_node s); [|reflexivity].
  rewrite expand_origin_inputs.
  destruct (expand_origin sp2 s) as [s'|]; simpl; [apply IH|reflexivity].
Qed.

Lemma expanded_inputs : expanded sp1 = expanded sp2.
Proof.
  destruct Hsame as (_ & Hn & _ & _ & _ & Hpos & Hvel & Hg & Hy & _).
  unfold expanded, initial_tree. rewrite Hn, Hpos, Hvel, Hg, Hy.
  simpl. apply expansion_loop_inputs.
Qed.

(** C9: two calls on planners with the same pose, velocity, yaw, goal,
    cloud and parameters produce the same tree, the same closed set and
    the same path, whatever tree, closed set, path, age and last waypoint
    the planners held before. *)
Theorem buildLookAheadTree_deterministic :
  tree_ <$> buildLookAheadTree sp1 = tree_ <$> buildLookAheadTree sp2 /\
  closed_set_ <$> buildLookAheadTree sp1
  = closed_set_ <$> buildLookAheadTree sp2 /\
  path_node_positions_ <$> buildLookAheadTree sp1
  = path_node_positions_ <$> buildLookAheadTree sp2 /\
  path_node_origins_ <$> buildLookAheadTree sp1
  = path_node_origins_ <$> buildLookAheadTree sp2.
Proof.
  unfold buildLookAheadTree. rewrite expanded_inputs.
  destruct (expanded sp2) as [s|]; simpl; [|repeat split].
  destruct (backtrack (length (ls_tree s)) (ls_tree s) (ls_origin s) [] [])
    as [path|]; simpl; [|repeat split].
  destruct (ls_tree s !! 0) as [root|]; simpl; repeat split.
Qed.

End Determinism.

(** ** Examples *)

(** The literal [0.2f] is the binary32 quotient of 1 by 5. *)
Example c0_2_is_a_fifth : F32.div (F32.of_Z 1) (F32.of_Z 5) = F32.c0_2.
Proof. vm_compute. reflexivity. Qed.

(** Two rounds along x: the path lists node 2, node 1 and node 0. *)
Example straight_path :
  path_node_origins_ Scene.straight_result = [2; 1; 0] /\
  path_node_positions_ Scene.straight_result
  = [Scene.point 2 0 0; Scene.point 1 0 0; Scene.origin3].
Proof. vm_compute. split; reflexivity. Qed.

Lemma straight_result_eq :
  buildLookAheadTree Scene.straight = Some Scene.straight_result.
Proof. apply buildLookAheadTree_returns. Qed.

Lemma straight_expanded_eq :
  expanded Scene.straight = Some Scene.straight_expanded.
Proof. vm_compute. reflexivity. Qed.

Lemma straight_last_origin : ls_origin Scene.straight_expanded = 2.
Proof. vm_compute. reflexivity. Qed.

(** With a negative budget no round is run. *)
Lemma negative_budget_result_eq :
  buildLookAheadTree Scene.negative_budget = Some Scene.negative_budget_result.
Proof. apply buildLookAheadTree_returns. Qed.

Lemma negative_budget_closed_set :
  closed_set_ Scene.negative_budget_result = [].
Proof. vm_compute. reflexivity. Qed.

(** Node 2 got the velocity of node 0 plus its step, not the velocity of
    node 1 plus its step. *)
Example straight_velocity :
  getVelocity <$> tree_ Scene.straight_result !! 1 = Some (Scene.point 1 0 0) /\
  getVelocity <$> tree_ Scene.straight_result !! 2 = Some (Scene.point 1 0 0).
Proof. vm_compute. split; reflexivity. Qed.

(** A candidate that leads to the position of a node of the tree is
    rejected: of the two equal steps only one becomes a node. *)
Example twice_one_child :
  length <$> (tree_ <$> buildLookAheadTree Scene.twice) = Some 2.
Proof. vm_compute. reflexivity. Qed.

(** C1, at the first round of the straight scene. *)
Lemma child_cost_witness :
  expand_origin Scene.straight Scene.straight_start = Some Scene.straight_round1 /\
  exists o o' candidate,
    ls_tree Scene.straight_start !! ls_origin Scene.straight_start = Some o /\
    ls_tree Scene.straight_round1 !! origin_ Scene.straight_node1 = Some o' /\
    origin_ Scene.straight_node1 = ls_origin Scene.straight_start /\
    total_cost_ o' = total_cost_ o /\ heuristic_ o' = heuristic_ o /\
    candidate ∈ candidates_at Scene.straight (getPosition o) (getVelocity o) /\
    getPosition Scene.straight_node1
    = child_location Scene.straight (getPosition o) candidate /\
    heuristic_ Scene.straight_node1
    = norm (vsub (goal_ Scene.straight) (getPosition Scene.straight_node1)) /\
    total_cost_ Scene.straight_node1
    = F32.add
        (F32.add (F32.sub (total_cost_ o) (heuristic_ o))
           (edge_cost Scene.straight (getPosition o)
              (getVelocity Scene.straight_node1) candidate))
        (heuristic_ Scene.straight_node1).
Proof.
  split; [vm_compute; reflexivity|].
  apply (child_cost Scene.straight Scene.straight_start Scene.straight_round1
           ltac:(vm_compute; reflexivity) 1 Scene.straight_node1).
  - vm_compute. lia.
  - vm_compute. reflexivity.
Defined.

Lemma straight_chain :
  parent_chain (ls_tree Scene.straight_expanded)
    (ls_origin Scene.straight_expanded) [2; 1; 0].
Proof.
  rewrite straight_last_origin.
  eapply chain_step; [vm_compute; reflexivity|].
  eapply chain_step; [vm_compute; reflexivity|].
  apply chain_root.
Qed.

(** C2 as worded fails on the straight scene: the path starts with the
    position of the last origin, node 2, and ends with the position of
    node 0. *)
Lemma path_order_counterexample : ~ path_runs_root_first Scene.straight.
Proof.
  intros Hclaim.
  destruct (Hclaim Scene.straight_result Scene.straight_expanded
              straight_result_eq straight_expanded_eq)
    as (chain & Hchain & Hpositions).
  rewrite (parent_chain_unique _ _ _ Hchain _ straight_chain) in Hpositions.
  vm_compute in Hpositions. discriminate Hpositions.
Qed.

(** C2 as amended, on the straight scene. *)
Lemma path_follows_parents_witness :
  exists s sp' chain,
    expanded Scene.straight = Some s /\
    buildLookAheadTree Scene.straight = Some sp' /\
    tree_ sp' = ls_tree s /\
    parent_chain (ls_tree s) (ls_origin s) chain /\
    path_node_origins_ sp' = chain /\
    Some <$> path_node_positions_ sp' = positions_of (ls_tree s) chain /\
    head chain = Some (ls_origin s) /\
    last chain = Some 0.
Proof. exact (path_follows_parents Scene.straight). Defined.

(** C4, at the first round of the straight scene. *)
Lemma nodes_keep_their_distance_witness :
  within_threshold (getPosition Scene.straight_node0)
    (getPosition Scene.straight_node1) = false /\
  exists sp',
    buildLookAheadTree Scene.straight = Some sp' /\
    forall i j ni nj,
      i <> j -> tree_ sp' !! i = Some ni -> tree_ sp' !! j = Some nj ->
      within_threshold (getPosition ni) (getPosition nj) = false.
Proof.
  split.
  - apply (proj1 (nodes_keep_their_distance Scene.straight)
             Scene.straight_start Scene.straight_round1
             ltac:(vm_compute; reflexivity) 0 1).
    + vm_compute. lia.
    + lia.
    + vm_compute. reflexivity.
    + vm_compute. reflexivity.
  - apply (proj2 (nodes_keep_their_distance Scene.straight)).
Defined.

(** C5 as worded fails for a negative budget: no node is closed, which is
    more than -1, and the tree holds its root, which is more than
    1 + (-1) * 1 nodes. *)
Lemma budget_bound_counterexample :
  ~ budget_bound_as_stated Scene.negative_budget.
Proof.
  intros Hclaim.
  destruct (Hclaim Scene.negative_budget_result negative_budget_result_eq)
    as (Hclosed & _).
  rewrite negative_budget_closed_set in Hclosed.
  change (n_expanded_nodes_ Scene.negative_budget) with (-1)%Z in Hclosed.
  simpl in Hclosed. lia.
Qed.

(** C5 as amended, on the scene with a negative budget. *)
Lemma budget_bound_witness :
  exists sp',
    buildLookAheadTree Scene.negative_budget = Some sp' /\
    (Z.of_nat (length (closed_set_ sp'))
     <= Z.max 0 (n_expanded_nodes_ Scene.negative_budget))%Z /\
    (forall o,
       (Z.of_nat (children_of (tree_ sp') o)
        <= Z.max 0 (children_per_node_ Scene.negative_budget))%Z) /\
    (Z.of_nat (length (tree_ sp'))
     <= 1 + Z.max 0 (n_expanded_nodes_ Scene.negative_budget)
            * Z.max 0 (children_per_node_ Scene.negative_budget))%Z.
Proof. exact (budget_bound Scene.negative_budget). Defined.

(** C6, on the straight scene. *)
Lemma root_invariant_witness :
  exists sp' root first,
    buildLookAheadTree Scene.straight = Some sp' /\
    tree_ sp' !! 0 = Some root /\
    origin_ root = 0 /\ depth_ root = 0%Z /\
    getPosition root = position_ Scene.straight /\
    initial_tree Scene.straight = Some [first] /\
    total_cost_ first = heuristic_ first /\
    heuristic_ first
    = norm (vsub (goal_ Scene.straight) (position_ Scene.straight)) /\
    last (path_node_positions_ sp') = Some (getPosition root) /\
    last (path_node_origins_ sp') = Some 0.
Proof. exact (root_invariant Scene.straight). Defined.

(** C8, with a branching factor of zero. *)
Lemma degenerate_path_witness :
  ((n_expanded_nodes_ Scene.no_branching <= 0)%Z \/
   (children_per_node_ Scene.no_branching <= 0)%Z \/
   candidates_at Scene.no_branching (position_ Scene.no_branching)
     (velocity_ Scene.no_branching) = []) /\
  exists sp',
    buildLookAheadTree Scene.no_branching = Some sp' /\
    path_node_positions_ sp' = [position_ Scene.no_branching] /\
    path_node_origins_ sp' = [0] /\
    ((0 < n_expanded_nodes_ Scene.no_branching)%Z ->
     candidates_at Scene.no_branching (position_ Scene.no_branching)
       (velocity_ Scene.no_branching) = [] ->
     exists root,
       tree_ sp' = [root] /\ total_cost_ root = F32.HUGE_VAL /\
       closed_ root = true /\ closed_set_ sp' = [0]).
Proof.
  assert (Hzero : (children_per_node_ Scene.no_branching <= 0)%Z)
    by (vm_compute; discriminate).
  split; [right; left; exact Hzero|].
  apply (degenerate_path Scene.no_branching). right. left. exact Hzero.
Defined.

(** C9, for a second call on the planner a first call returned. *)
Lemma buildLookAheadTree_deterministic_witness :
  same_inputs Scene.straight Scene.straight_result /\
  tree_ <$> buildLookAheadTree Scene.straight
  = tree_ <$> buildLookAheadTree Scene.straight_result /\
  closed_set_ <$> buildLookAheadTree Scene.straight
  = closed_set_ <$> buildLookAheadTree Scene.straight_result /\
  path_node_positions_ <$> buildLookAheadTree Scene.straight
  = path_node_positions_ <$> buildLookAheadTree Scene.straight_result /\
  path_node_origins_ <$> buildLookAheadTree Scene.straight
  = path_node_origins_ <$> buildLookAheadTree Scene.straight_result.
Proof.
  assert (Hsame : same_inputs Scene.straight Scene.straight_result)
    by (vm_compute; repeat split).
  split; [exact Hsame|].
  apply (buildLookAheadTree_deterministic Scene.straight Scene.straight_result
           Hsame).
Defined.

(** ** Skeletons *)

Lemma skeleton_set_closed (b : bool) (nd : TreeNode) :
  skeleton (set_closed b nd) = skeleton nd.
Proof. reflexivity. Qed.

Lemma skeleton_set_total_cost (c : float) (nd : TreeNode) :
  skeleton (set_total_cost c nd) = skeleton nd.
Proof. reflexivity. Qed.

Lemma skeleton_fields (a b : TreeNode) :
  skeleton a = skeleton b ->
  heuristic_ a = heuristic_ b /\ last_e_ a = last_e_ b /\
  last_z_ a = last_z_ b /\ origin_ a = origin_ b /\ depth_ a = depth_ b /\
  yaw_ a = yaw_ b /\ getPosition a = getPosition b /\
  getVelocity a = getVelocity b.
Proof.
  destruct a, b. unfold skeleton, set_closed, set_total_cost. simpl.
  intros Heq. inversion Heq. repeat split.
Qed.

Lemma skeleton_eq (a b : TreeNode) :
  skeleton a = skeleton b -> total_cost_ a = total_cost_ b ->
  closed_ a = closed_ b -> a = b.
Proof.
  destruct a, b. unfold skeleton, set_closed, set_total_cost. simpl.
  intros Heq -> ->. inversion Heq. reflexivity.
Qed.

Section Further.

Context `{Collaborators}.

Variable sp : StarPlanner.

Lemma skeleton_close_origin o nd :
skeleton (close_origin sp o nd) = skeleton nd.
Proof.
unfold close_origin.
destruct (candidates_at sp (getPosition o) (getVelocity o)); reflexivity.
Qed.

Lemma close_origin_with_candidates o nd :
candidates_at sp (getPosition o) (getVelocity o) <> [] ->
close_origin sp o nd = set_closed true nd.
Proof.
unfold close_origin.
destruct (candidates_at sp (getPosition o) (getVelocity o));
  [intros Hne; exfalso; apply Hne; reflexivity|reflexivity].
Qed.

Lemma close_origin_without_candidates o :
candidates_at sp (getPosition o) (getVelocity o) = [] ->
dead_end sp (close_origin sp o o).
Proof.
intros Hnil. unfold dead_end, close_origin. rewrite Hnil. simpl.
repeat split. exact Hnil.
Qed.

(** The node built for a candidate depends on the origin through its
  costs, its depth and its position, and on the parent of the origin
  through its velocity. *)
Lemma child_node_ext origin o o' parent parent' candidate :
total_cost_ o = total_cost_ o' -> heuristic_ o = heuristic_ o' ->
depth_ o = depth_ o' -> getPosition o = getPosition o' ->
getVelocity parent = getVelocity parent' ->
child_node sp origin o parent candidate
= child_node sp origin o' parent' candidate.
Proof.
intros Ht Hh Hd Hp Hv. unfold child_node. rewrite Ht, Hh, Hd, Hp, Hv.
reflexivity.
Qed.

(** *** The search for the best node, once more *)

(** Beside what [find_best_node_spec] says, the node the search ends on is
  the first of the candidate origins with its accumulated cost. *)
Lemma find_best_node_first nodes :
forall i minimal_cost origin flag,
  (find_best_node (position_ sp) (max_path_length_ sp) nodes i
     minimal_cost origin flag = (minimal_cost, origin, flag) /\
   forall k nd, nodes !! k = Some nd -> eligible sp nd ->
     F32.ltb (total_cost_ nd) minimal_cost = false)
  \/
  (exists k nd,
     nodes !! k = Some nd /\
     find_best_node (position_ sp) (max_path_length_ sp) nodes i
       minimal_cost origin flag = (total_cost_ nd, i + k, true) /\
     eligible sp nd /\
     F32.ltb (total_cost_ nd) minimal_cost = true /\
     forall k' nd', nodes !! k' = Some nd' -> eligible sp nd' ->
       F32.ltb (total_cost_ nd') (total_cost_ nd) = false /\
       (k' < k -> total_cost_ nd' <> total_cost_ nd)).
Proof.
induction nodes as [|nd rest IH]; intros i m origin flag.
- left. split; [reflexivity|]. intros k x Hk. inversion Hk.
- simpl.
  destruct (negb (closed_ nd)) eqn:Hopen; simpl.
  + destruct (F32.ltb (total_cost_ nd) m) eqn:Hlt; simpl.
    * destruct (F32.ltb (norm (vsub (getPosition nd) (position_ sp)))
                  (max_path_length_ sp)) eqn:Hnear.
      -- right.
         destruct (IH (S i) (total_cost_ nd) i true)
           as [[Heq Hall]|(k & x & Hk & Heq & Hel & Hlt' & Hall)].
         ++ exists 0, nd. rewrite Heq, Nat.add_0_r.
            split; [reflexivity|]. split; [reflexivity|].
            split; [apply eligible_dec; assumption|]. split; [exact Hlt|].
            intros [|k'] x Hk' Hel.
            ** inversion Hk'; subst. split; [apply ltb_irrefl|lia].
            ** split; [apply (Hall k' x Hk' Hel)|lia].
         ++ exists (S k), x. rewrite Heq.
            split; [exact Hk|]. split; [f_equal; f_equal; lia|].
            split; [exact Hel|].
            split; [exact (ltb_trans _ _ _ Hlt' Hlt)|].
            intros [|k'] y Hk' Hel'.
            ** inversion Hk'; subst. split; [apply ltb_asym, Hlt'|].
               intros _ Heqc. rewrite Heqc, ltb_irrefl in Hlt'. discriminate.
            ** destruct (Hall k' y Hk' Hel') as [Hlow Hfirst].
               split; [exact Hlow|]. intros Hlt''. apply Hfirst. lia.
      -- destruct (IH (S i) m origin flag)
           as [[Heq Hall]|(k & x & Hk & Heq & Hel & Hlt' & Hall)].
         ++ left. split; [exact Heq|]. intros [|k'] y Hk' Hel'.
            ** inversion Hk'; subst. destruct Hel' as [_ Hel']. congruence.
            ** apply (Hall k' y Hk' Hel').
         ++ right. exists (S k), x. rewrite Heq.
            split; [exact Hk|]. split; [f_equal; f_equal; lia|].
            split; [exact Hel|]. split; [exact Hlt'|].
            intros [|k'] y Hk' Hel'.
            ** inversion Hk'; subst. destruct Hel' as [_ Hel']. congruence.
            ** destruct (Hall k' y Hk' Hel') as [Hlow Hfirst].
               split; [exact Hlow|]. intros Hlt''. apply Hfirst. lia.
    * destruct (IH (S i) m origin flag)
        as [[Heq Hall]|(k & x & Hk & Heq & Hel & Hlt' & Hall)].
      -- left. split; [exact Heq|]. intros [|k'] y Hk' Hel'.
         ++ inversion Hk'; subst. exact Hlt.
         ++ apply (Hall k' y Hk' Hel').
      -- right. exists (S k), x. rewrite Heq.
         split; [exact Hk|]. split; [f_equal; f_equal; lia|].
         split; [exact Hel|]. split; [exact Hlt'|].
         intros [|k'] y Hk' Hel'.
         ++ inversion Hk'; subst. split.
            ** destruct (F32.ltb (total_cost_ y) (total_cost_ x)) eqn:Hyx;
                 [|reflexivity].
               pose proof (ltb_trans _ _ _ Hyx Hlt'). congruence.
            ** intros _ Heqc. rewrite Heqc in Hlt. congruence.
         ++ destruct (Hall k' y Hk' Hel') as [Hlow Hfirst].
            split; [exact Hlow|]. intros Hlt''. apply Hfirst. lia.
  + destruct (IH (S i) m origin flag)
      as [[Heq Hall]|(k & x & Hk & Heq & Hel & Hlt' & Hall)].
    * left. split; [exact Heq|]. intros [|k'] y Hk' Hel'.
      -- inversion Hk'; subst. destruct Hel' as [Hc _].
         rewrite Hc in Hopen. discriminate.
      -- apply (Hall k' y Hk' Hel').
    * right. exists (S k), x. rewrite Heq.
      split; [exact Hk|]. split; [f_equal; f_equal; lia|].
      split; [exact Hel|]. split; [exact Hlt'|].
      intros [|k'] y Hk' Hel'.
      -- inversion Hk'; subst. destruct Hel' as [Hc _].
         rewrite Hc in Hopen. discriminate.
      -- destruct (Hall k' y Hk' Hel') as [Hlow Hfirst].
         split; [exact Hlow|]. intros Hlt''. apply Hfirst. lia.
Qed.

(** The origin and the flag a round leaves, read off the search. *)
Lemma state_after_round_search s o new :
let s' := state_after_round sp s o new in
(ls_is_expanded_node s' = false /\ ls_origin s' = ls_origin s /\
 stalled sp (ls_tree s'))
\/
(ls_is_expanded_node s' = true /\
 exists x, best_open_node sp (ls_tree s') (ls_origin s') x).
Proof.
intros s'. subst s'.
rewrite state_after_round_origin, state_after_round_flag.
destruct (find_best_node_first (ls_tree (state_after_round sp s o new)) 0
            F32.HUGE_VAL (ls_origin s) false)
  as [[Hb Hall]|(k & x & Hk & Hb & Hel & Hlt & Hall)]; rewrite Hb;
  cbn [fst snd].
- left. split; [reflexivity|]. split; [reflexivity|].
  intros j nj Hj Hel Hp. unfold priced in Hp.
  rewrite (Hall j nj Hj Hel) in Hp. discriminate.
- right. split; [reflexivity|]. exists x.
  split; [exact Hk|]. split; [exact Hel|]. split; [exact Hlt|exact Hall].
Qed.

(** *** The further bookkeeping of the expansion loop *)

Lemma round_inv_initial : round_inv sp (initial_state sp).
Proof.
split; simpl.
- exists (root_node sp). split; [reflexivity|]. split; [reflexivity|].
  left. reflexivity.
- intros [|i] nd Hnd Hi; [lia|]. inversion Hnd.
- intros [|i] nd Hnd; [|inversion Hnd]. inversion Hnd; subst. simpl. lia.
- left. repeat split.
- intros i Hi. inversion Hi.
- intros Hne. exfalso. apply Hne. reflexivity.
Qed.

Lemma root_origin s root :
round_inv sp s -> ls_tree s !! 0 = Some root -> origin_ root = 0.
Proof.
intros Hr Hroot. destruct (rinv_root _ _ Hr) as (r & Hr0 & Hsk & _).
rewrite Hroot in Hr0. inversion Hr0; subst r.
apply skeleton_fields in Hsk. destruct Hsk as (_ & _ & _ & Ho & _).
exact Ho.
Qed.

(** The parent of a closed node is closed. *)
Lemma parent_of_closed s j p grandparent :
round_inv sp s ->
ls_tree s !! j = Some p -> closed_ p = true ->
ls_tree s !! origin_ p = Some grandparent ->
closed_ grandparent = true.
Proof.
intros Hr Hp Hc Hg. destruct j as [|j].
- rewrite (root_origin s p Hr Hp), Hp in Hg. inversion Hg; subst. exact Hc.
- destruct (rinv_built _ _ Hr (S j) p Hp ltac:(lia))
    as (p2 & _ & _ & Hp2 & _ & Hc2 & _).
  rewrite Hp2 in Hg. inversion Hg; subst. exact Hc2.
Qed.

Lemma lookup_kept tree origin o new j x :
tree !! j = Some x -> j <> origin ->
alter (close_origin sp o) origin (tree ++ new) !! j = Some x.
Proof.
intros Hj Hne. rewrite list_lookup_alter_ne by congruence.
apply lookup_app_l_Some, Hj.
Qed.

Lemma lookup_closed_origin tree origin o new :
tree !! origin = Some o ->
alter (close_origin sp o) origin (tree ++ new) !! origin
= Some (close_origin sp o o).
Proof.
intros Ho. rewrite list_lookup_alter_eq, (lookup_app_l_Some _ _ _ _ Ho).
reflexivity.
Qed.

(** A node of the tree that was built from its parent still is after a
  round on another, open node. *)
Lemma built_from_kept s o new nd :
round_inv sp s ->
ls_tree s !! ls_origin s = Some o -> closed_ o = false ->
built_from sp (ls_tree s) nd ->
built_from sp
  (alter (close_origin sp o) (ls_origin s) (ls_tree s ++ new)) nd.
Proof.
intros Hr Ho Hoc (p & g & candidate & Hp & Hg & Hpc & Hcand & Hsk & Hcost).
assert (Hpne : origin_ nd <> ls_origin s).
{ intros Heq. rewrite Heq, Ho in Hp. inversion Hp; subst. congruence. }
assert (Hgne : origin_ p <> ls_origin s).
{ pose proof (parent_of_closed s _ p g Hr Hp Hpc Hg) as Hgc.
  intros Heq. rewrite Heq, Ho in Hg. inversion Hg; subst. congruence. }
exists p, g, candidate.
split; [apply lookup_kept; assumption|].
split; [apply lookup_kept; assumption|].
repeat split; assumption.
Qed.

(** A round of the expansion loop keeps the further bookkeeping too. *)
Lemma round_inv_round s :
loop_inv sp s -> round_inv sp s -> ls_is_expanded_node s = true ->
exists s',
  expand_origin sp s = Some s' /\ loop_inv sp s' /\ round_inv sp s' /\
  ls_closed_set s' = ls_closed_set s ++ [ls_origin s].
Proof.
intros Hinv Hr Hflag.
destruct (inv_open _ _ Hinv Hflag) as (o & Ho & Hoc).
destruct (tree_shape_parent sp _ _ _ (inv_shape _ _ Hinv) Ho) as [parent Hp].
destruct (expand_origin_eq sp s o parent Ho Hp)
  as (new & Heq & Hall & Hacc & Hle & Hnil).
destruct (loop_inv_round sp s Hinv Hflag)
  as (o' & new' & _ & _ & Heq' & Hinv' & _).
assert (Hsame : state_after_round sp s o' new' = state_after_round sp s o new)
  by congruence.
rewrite Hsame in Hinv'. clear Heq' Hsame o' new'.
exists (state_after_round sp s o new).
split; [exact Heq|]. split; [exact Hinv'|]. split; [|reflexivity].
pose proof (state_after_round_tree sp s o new Hnil) as Htree.
pose proof (alter_same_static (close_origin sp o) (ls_origin s)
              (ls_tree s ++ new) (close_origin_static sp o)) as HF.
split.
- (* the root *)
  rewrite Htree. destruct (rinv_root _ _ Hr) as (root & Hroot & Hsk & Hcost).
  destruct (decide (ls_origin s = 0)) as [H0|H0].
  + rewrite H0 in Ho |- *. rewrite Hroot in Ho. inversion Ho; subst o.
    exists (close_origin sp root root).
    split; [apply lookup_closed_origin, Hroot|]. split.
    * rewrite skeleton_close_origin. exact Hsk.
    * destruct (candidates_at sp (getPosition root) (getVelocity root))
        as [|c rest] eqn:Hc.
      -- right. apply close_origin_without_candidates, Hc.
      -- left. rewrite close_origin_with_candidates by (rewrite Hc; discriminate).
         simpl. destruct Hcost as [Hcost|(Hdead & _)]; [exact Hcost|congruence].
  + exists root. split; [apply lookup_kept; [exact Hroot|congruence]|].
    split; assumption.
- (* how each node was built *)
  intros i nd' Hnd' Hi. rewrite Htree in Hnd' |- *.
  destruct (lookup_after_round sp _ _ _ _ _ _ Ho Hnd')
    as [[-> ->]|[(Hd & Hlt & Hnd)|(Hge & Hnd)]].
  + pose proof (built_from_kept s o new o Hr Ho Hoc
                  (rinv_built _ _ Hr _ _ Ho Hi))
      as (p & g & candidate & Hp' & Hg' & Hpc & Hcand & Hsk & Hcost).
    assert (Horig : origin_ (close_origin sp o o) = origin_ o)
      by (symmetry; apply (close_origin_static sp o o)).
    exists p, g, candidate. rewrite Horig.
    split; [exact Hp'|]. split; [exact Hg'|]. split; [exact Hpc|].
    split; [exact Hcand|]. split; [rewrite skeleton_close_origin; exact Hsk|].
    destruct (candidates_at sp (getPosition o) (getVelocity o))
      as [|c rest] eqn:Hc.
    * right. apply close_origin_without_candidates, Hc.
    * left. rewrite close_origin_with_candidates by (rewrite Hc; discriminate).
      simpl. destruct Hcost as [Hcost|(Hdead & _)]; [exact Hcost|congruence].
  + apply (built_from_kept s o new nd' Hr Ho Hoc).
    apply (rinv_built _ _ Hr i nd' Hnd Hi).
  + destruct (Forall_lookup_1 _ _ _ _ Hall Hnd) as (candidate & Hcand & ->).
    assert (Hne : candidates_at sp (getPosition o) (getVelocity o) <> [])
      by (intros Hn; rewrite Hn in Hcand; inversion Hcand).
    assert (Hg : exists g,
               alter (close_origin sp o) (ls_origin s) (ls_tree s ++ new)
               !! origin_ o = Some g /\ getVelocity g = getVelocity parent).
    { destruct (decide (origin_ o = ls_origin s)) as [He|He].
      - exists (close_origin sp o o). rewrite He.
        split; [apply lookup_closed_origin, Ho|].
        rewrite He, Ho in Hp. inversion Hp; subst parent.
        symmetry. apply (close_origin_static sp o o).
      - exists parent. split; [apply lookup_kept; assumption|reflexivity]. }
    destruct Hg as (g & Hg & Hgv).
    assert (Hpo : alter (close_origin sp o) (ls_origin s) (ls_tree s ++ new)
                  !! ls_origin s = Some (set_closed true o)).
    { rewrite <- (close_origin_with_candidates o o Hne).
      apply lookup_closed_origin, Ho. }
    assert (Hsame : child_node sp (ls_origin s) o parent candidate
                    = child_node sp (ls_origin s) (set_closed true o) g
                        candidate)
      by (apply child_node_ext; try reflexivity; symmetry; exact Hgv).
    exists (set_closed true o), g, candidate.
    split; [exact Hpo|]. split; [exact Hg|]. split; [reflexivity|].
    split; [exact Hcand|].
    split; [exact (f_equal skeleton Hsame)|].
    left. exact (f_equal total_cost_ Hsame).
- (* the depths *)
  intros i nd' Hnd'. rewrite Htree in Hnd'.
  rewrite state_after_round_closed_set, length_app. simpl.
  destruct (lookup_after_round sp _ _ _ _ _ _ Ho Hnd')
    as [[-> ->]|[(Hd & Hlt & Hnd)|(Hge & Hnd)]].
  + assert (Hdep : depth_ (close_origin sp o o) = depth_ o)
      by (symmetry; apply (close_origin_static sp o o)).
    rewrite Hdep. pose proof (rinv_depth _ _ Hr _ _ Ho). lia.
  + pose proof (rinv_depth _ _ Hr _ _ Hnd). lia.
  + destruct (Forall_lookup_1 _ _ _ _ Hall Hnd) as (candidate & _ & ->).
    simpl. pose proof (rinv_depth _ _ Hr _ _ Ho). lia.
- (* the first closed node *)
  right. rewrite state_after_round_closed_set.
  destruct (rinv_first _ _ Hr) as [(Hnone & H0 & _)|Hhead].
  + rewrite Hnone, H0. reflexivity.
  + destruct (ls_closed_set s); [inversion Hhead|exact Hhead].
- (* the closed nodes are within the radius *)
  intros i Hi. rewrite state_after_round_closed_set in Hi. rewrite Htree.
  assert (Hstatic : forall j x, ls_tree s !! j = Some x -> near sp x ->
            exists x', alter (close_origin sp o) (ls_origin s)
                         (ls_tree s ++ new) !! j = Some x' /\ near sp x').
  { intros j x Hj Hnear.
    destruct (Forall2_lookup_l _ _ _ _ _ HF (lookup_app_l_Some _ _ _ _ Hj))
      as (x' & Hx' & (_ & _ & Hpos & _)).
    exists x'. split; [exact Hx'|]. unfold near. rewrite <- Hpos. exact Hnear. }
  apply elem_of_app in Hi as [Hi|Hi].
  + destruct (rinv_near _ _ Hr i Hi) as [->|(x & Hx & Hnear)];
      [left; reflexivity|right; eauto].
  + apply list_elem_of_singleton in Hi. subst i.
    destruct (rinv_first _ _ Hr) as [(_ & H0 & _)|Hhead]; [left; exact H0|].
    right. assert (Hne : ls_closed_set s <> [])
      by (intros Hn; rewrite Hn in Hhead; inversion Hhead).
    pose proof (rinv_origin _ _ Hr Hne) as Hbest. rewrite Hflag in Hbest.
    destruct Hbest as (x & Hx & (_ & Hnear) & _).
    apply (Hstatic _ x Hx Hnear).
- (* the origin *)
  intros _.
  destruct (state_after_round_search s o new)
    as [(Hf & Horig & Hstall)|(Hf & x & Hbest)]; rewrite Hf.
  + split; [|exact Hstall].
    rewrite state_after_round_closed_set, Horig. apply last_snoc.
  + exists x. exact Hbest.
Qed.


(** The loop returns with both bookkeepings; when it is left with the flag
  still set, every round of the budget was run. *)
Lemma expansion_loop_further budget :
forall s, loop_inv sp s -> round_inv sp s ->
  exists s', expansion_loop sp budget s = Some s' /\
    loop_inv sp s' /\ round_inv sp s' /\
    length (ls_closed_set s') <= length (ls_closed_set s) + budget /\
    (ls_is_expanded_node s' = true ->
     length (ls_closed_set s') = length (ls_closed_set s) + budget).
Proof.
induction budget as [|budget IH]; intros s Hinv Hr.
- exists s. simpl. split; [reflexivity|]. split; [exact Hinv|].
  split; [exact Hr|]. split; [lia|intros _; lia].
- simpl. destruct (ls_is_expanded_node s) eqn:Hflag.
  + destruct (round_inv_round s Hinv Hr Hflag)
      as (s1 & Heq & Hinv1 & Hr1 & Hc1).
    rewrite Heq. simpl.
    destruct (IH s1 Hinv1 Hr1) as (s' & Hs' & Hinv' & Hr' & Hle & Hfull).
    rewrite Hc1, length_app in Hle, Hfull. simpl in Hle, Hfull.
    exists s'. split; [exact Hs'|]. split; [exact Hinv'|].
    split; [exact Hr'|]. split; [lia|]. intros Hf. specialize (Hfull Hf). lia.
  + exists s. split; [reflexivity|]. split; [exact Hinv|].
    split; [exact Hr|]. split; [lia|]. rewrite Hflag. discriminate.
Qed.

(** The whole call, with both bookkeepings. *)
Lemma buildLookAheadTree_further :
exists s l ps root sp',
  expanded sp = Some s /\ loop_inv sp s /\ round_inv sp s /\
  length (ls_closed_set s) <= Z.to_nat (n_expanded_nodes_ sp) /\
  (ls_is_expanded_node s = true ->
   length (ls_closed_set s) = Z.to_nat (n_expanded_nodes_ sp)) /\
  parent_chain (ls_tree s) (ls_origin s) (l ++ [0]) /\
  positions_of (ls_tree s) l = Some <$> ps /\
  ls_tree s !! 0 = Some root /\
  buildLookAheadTree sp = Some sp' /\
  tree_ sp' = ls_tree s /\
  closed_set_ sp' = ls_closed_set s /\
  path_node_origins_ sp' = l ++ [0] /\
  path_node_positions_ sp' = ps ++ [getPosition root] /\
  tree_age_ sp' = 0%Z /\
  same_inputs sp sp' /\
  projected_last_wp_ sp' = projected_last_wp_ sp.
Proof.
destruct (expansion_loop_further (Z.to_nat (n_expanded_nodes_ sp))
            (initial_state sp) (loop_inv_initial sp) round_inv_initial)
  as (s & Hs & Hinv & Hr & Hle & Hfull).
simpl in Hle, Hfull.
destruct (backtrack_spec sp (ls_tree s) (inv_shape _ _ Hinv) (ls_origin s)
            (ls_origin s) (le_n _) (inv_origin _ _ Hinv))
  as (l & ps & Hl & Hps & Hb).
destruct (shape_root _ _ (inv_shape _ _ Hinv)) as (root & Hroot & _).
exists s, l, ps, root.
unfold buildLookAheadTree. rewrite expanded_eq, Hs. simpl.
rewrite (Hb (length (ls_tree s)) [] [])
  by (pose proof (inv_origin _ _ Hinv); lia).
simpl. rewrite Hroot. simpl.
eexists. split; [reflexivity|]. split; [exact Hinv|]. split; [exact Hr|].
split; [exact Hle|]. split; [exact Hfull|]. split; [exact Hl|].
split; [exact Hps|]. split; [reflexivity|]. split; [reflexivity|].
simpl. repeat split.
Qed.

(** The depth of a node counts the parent links between it and node 0. *)
Lemma depth_counts_links tree i l :
tree_shape sp tree -> parent_chain tree i l ->
forall nd, tree !! i = Some nd -> Z.of_nat (length l) = (depth_ nd + 1)%Z.
Proof.
intros Hshape. induction 1 as [|i x l Hx Hl IH]; intros nd Hnd.
- destruct (shape_root _ _ Hshape) as (root & Hroot & _ & Hd & _).
  rewrite Hroot in Hnd. inversion Hnd; subst. rewrite Hd. reflexivity.
- rewrite Hx in Hnd. inversion Hnd; subst x.
  destruct (shape_child _ _ Hshape (S i) nd Hx ltac:(lia))
    as (_ & p & _ & Hp & _ & Hd & _).
  specialize (IH p Hp). simpl length. rewrite Hd. lia.
Qed.


(** *** The order of the children *)

Lemma insert_candidates_order origin o parent candidates :
forall tree children,
  tree !! origin = Some o ->
  tree !! origin_ o = Some parent ->
  exists cs,
    cs `sublist_of` candidates /\
    insert_candidates sp origin (depth_ o + 1) (getPosition o)
      (generateNewHistogram (cloud_ sp) (getPosition o)) candidates
      (tree, children)
    = Some (tree ++ (child_node sp origin o parent <$> cs),
            (children + Z.of_nat (length cs))%Z).
Proof.
induction candidates as [|candidate rest IH]; intros tree children Ho Hp.
- exists []. split; [constructor|]. simpl.
  rewrite app_nil_r, Z.add_0_r. reflexivity.
- simpl. rewrite (insert_candidate_eq sp _ _ _ _ _ _ Ho Hp). simpl.
  destruct (accepted sp tree children _).
  + destruct (IH (tree ++ [child_node sp origin o parent candidate])
                (children + 1)%Z
                (lookup_app_l_Some _ _ _ _ Ho) (lookup_app_l_Some _ _ _ _ Hp))
      as (cs & Hsub & Heq).
    exists (candidate :: cs). split; [apply sublist_skip, Hsub|].
    rewrite Heq, <- app_assoc. simpl. f_equal. f_equal. lia.
  + destruct (IH tree children Ho Hp) as (cs & Hsub & Heq).
    exists cs. split; [apply sublist_cons, Hsub|exact Heq].
Qed.

Lemma expand_origin_order s o parent :
ls_tree s !! ls_origin s = Some o ->
ls_tree s !! origin_ o = Some parent ->
exists cs,
  cs `sublist_of` candidates_at sp (getPosition o) (getVelocity o) /\
  expand_origin sp s
  = Some (state_after_round sp s o
            (child_node sp (ls_origin s) o parent <$> cs)).
Proof.
intros Ho Hp. unfold expand_origin, state_after_round, tree_after_candidates.
rewrite Ho. simpl.
destruct (candidates_at sp (getPosition o) (getVelocity o))
  as [|candidate rest] eqn:Hc.
- exists []. split; [constructor|]. simpl.
  rewrite list_lookup_alter_eq, Ho. reflexivity.
- destruct (insert_candidates_order (ls_origin s) o parent (candidate :: rest)
              (ls_tree s) 0%Z Ho Hp) as (cs & Hsub & Heq).
  exists cs. split; [exact Hsub|]. rewrite Heq. simpl.
  rewrite (lookup_app_l_Some _ _ _ _ Ho). reflexivity.
Qed.

Lemma same_static_positions (l k : list TreeNode) :
Forall2 same_static l k -> getPosition <$> l = getPosition <$> k.
Proof.
induction 1 as [|x y l k (_ & _ & Hp & _) _ IH]; [reflexivity|].
rewrite !fmap_cons, Hp, IH. reflexivity.
Qed.

Lemma parent_chain_step tree i chain :
parent_chain tree i chain ->
forall k a b, chain !! k = Some a -> chain !! S k = Some b ->
  exists nd, tree !! a = Some nd /\ origin_ nd = b /\ 0 < a.
Proof.
induction 1 as [|i nd l Hnd Hl IH]; intros k a b Ha Hb.
- destruct k; inversion Hb.
- destruct k as [|k].
  + simpl in Ha, Hb. inversion Ha; subst a.
    exists nd. split; [exact Hnd|]. split; [|lia].
    pose proof (parent_chain_head _ _ _ Hl) as Hh.
    rewrite head_lookup, Hb in Hh. inversion Hh. reflexivity.
  + simpl in Ha, Hb. apply (IH k a b Ha Hb).
Qed.


End Further.

(** ** The choice of the next origin *)

Section NextOrigin.

Context `{Collaborators}.

Variable sp : StarPlanner.

(** C3, as amended: after a round of the expansion loop, the loop goes on
  exactly when the tree holds an open node within [max_path_length_] of
  the start position whose accumulated cost is below [HUGE_VAL]; the new
  origin then is such a node, and no open node within that radius has a
  lower accumulated cost; a closed node is not chosen; when the tree
  holds no open node within that radius the loop stops, and a loop that
  stops runs no further round.  Over a whole call no node is closed
  twice. *)
Theorem next_origin_is_best_open_node (s s' : LoopState) :
expand_origin sp s = Some s' ->
(ls_is_expanded_node s' = true <->
 exists j nj, ls_tree s' !! j = Some nj /\ eligible sp nj /\ priced nj) /\
(ls_is_expanded_node s' = true ->
 exists nd,
   ls_tree s' !! ls_origin s' = Some nd /\
   closed_ nd = false /\
   F32.ltb (norm (vsub (getPosition nd) (position_ sp)))
     (max_path_length_ sp) = true /\
   priced nd /\
   forall j nj, ls_tree s' !! j = Some nj -> eligible sp nj ->
     F32.ltb (total_cost_ nj) (total_cost_ nd) = false) /\
((forall j nj, ls_tree s' !! j = Some nj -> ~ eligible sp nj) ->
 ls_is_expanded_node s' = false) /\
(ls_is_expanded_node s' = false ->
 forall budget, expansion_loop sp budget s' = Some s') /\
(exists sp', buildLookAheadTree sp = Some sp' /\ NoDup (closed_set_ sp')).
Proof.
intros He.
assert (Hnodup : exists sp',
           buildLookAheadTree sp = Some sp' /\ NoDup (closed_set_ sp')).
{ destruct (buildLookAheadTree_spec sp)
    as (s0 & _ & _ & _ & sp' & _ & Hinv & _ & _ & _ & _ & _ & Hbuild & _
        & Hc & _).
  exists sp'. split; [exact Hbuild|]. rewrite Hc. apply (inv_nodup _ _ Hinv). }
destruct (expand_origin_inv sp s s' He) as (o & new & _ & -> & _).
destruct (state_after_round_search sp s o new)
  as [(Hf & _ & Hstall)|(Hf & x & Hx & Hel & Hpriced & Hall)].
- split.
  { split; [congruence|]. intros (j & nj & Hj & Hel & Hp).
    exfalso. exact (Hstall j nj Hj Hel Hp). }
  split; [congruence|]. split; [intros _; exact Hf|].
  split; [|exact Hnodup].
  intros _ [|budget]; [reflexivity|]. cbn [expansion_loop].
  rewrite Hf. reflexivity.
- split.
  { split; [|intros _; exact Hf]. intros _.
    exists (ls_origin (state_after_round sp s o new)), x.
    split; [exact Hx|]. split; assumption. }
  split.
  { intros _. exists x. split; [exact Hx|]. destruct Hel as [Hc Hd].
    split; [exact Hc|]. split; [exact Hd|]. split; [exact Hpriced|].
    intros j nj Hj Hel'. apply (proj1 (Hall j nj Hj Hel')). }
  split.
  { intros Hnone. exfalso. exact (Hnone _ x Hx Hel). }
  split; [congruence|exact Hnodup].
Qed.

End NextOrigin.

(** ** Further properties of the look-ahead tree *)

Section Extras.

Context `{Collaborators}.

Variable sp : StarPlanner.

(** X1: the closed set of a call lists the nodes whose closed flag is set;
  every node but node 0 has a closed parent, and an open node has no
  child. *)
Theorem closed_set_lists_closed_nodes :
exists sp',
  buildLookAheadTree sp = Some sp' /\
  (forall i, i ∈ closed_set_ sp' <->
     exists nd, tree_ sp' !! i = Some nd /\ closed_ nd = true) /\
  (forall i nd, tree_ sp' !! i = Some nd -> 0 < i ->
     exists p, tree_ sp' !! origin_ nd = Some p /\ closed_ p = true) /\
  (forall i nd, tree_ sp' !! i = Some nd -> closed_ nd = false ->
     children_of (tree_ sp') i = 0).
Proof.
destruct (buildLookAheadTree_further sp)
  as (s & l & ps & root & sp' & _ & Hinv & Hr & _ & _ & _ & _ & _ & Hb & Ht
      & Hc & _).
exists sp'. split; [exact Hb|]. rewrite Ht, Hc.
split; [exact (inv_closed _ _ Hinv)|]. split.
- intros i nd Hnd Hi.
  destruct (rinv_built _ _ Hr i nd Hnd Hi) as (p & _ & _ & Hp & _ & Hpc & _).
  exists p. split; assumption.
- intros i nd Hnd Hopen.
  apply (proj2 (inv_children _ _ Hinv i nd Hnd) Hopen).
Qed.

(** X2: when the expansion budget is positive, node 0 is the first node a
  call closes; when it is not, nothing is closed and the tree is the
  first node alone, as lines 57 to 60 build it. *)
Theorem root_is_closed_first :
exists sp' root,
  buildLookAheadTree sp = Some sp' /\
  tree_ sp' !! 0 = Some root /\
  ((0 < n_expanded_nodes_ sp)%Z ->
   head (closed_set_ sp') = Some 0 /\ closed_ root = true) /\
  ((n_expanded_nodes_ sp <= 0)%Z ->
   closed_set_ sp' = [] /\ tree_ sp' = [root_node sp]).
Proof.
destruct (buildLookAheadTree_further sp)
  as (s & l & ps & root & sp' & Hs & Hinv & Hr & Hle & Hfull & _ & _ & Hroot
      & Hb & Ht & Hc & _).
exists sp', root. split; [exact Hb|]. rewrite Ht, Hc.
split; [exact Hroot|]. split.
- intros Hpos.
  assert (Hhead : head (ls_closed_set s) = Some 0).
  { destruct (rinv_first _ _ Hr) as [(Hnone & _ & Hflag)|Hhead];
      [|exact Hhead].
    specialize (Hfull Hflag). rewrite Hnone in Hfull. simpl in Hfull. lia. }
  split; [exact Hhead|].
  apply head_Some_elem_of in Hhead.
  apply (inv_closed _ _ Hinv) in Hhead as (nd & Hnd & Hclosed).
  rewrite Hroot in Hnd. inversion Hnd; subst. exact Hclosed.
- intros Hneg. rewrite expanded_eq in Hs.
  replace (Z.to_nat (n_expanded_nodes_ sp)) with 0 in Hs by lia.
  simpl in Hs. inversion Hs. split; reflexivity.
Qed.

(** X3: the depth of a node is the number of parent links between it and
  node 0, and at most the number of closed nodes; the path has one entry
  more than the depth of the node it starts with, hence at most
  [1 + max 0 n_expanded_nodes_] entries. *)
Theorem depth_counts_parent_links :
exists sp' i o,
  buildLookAheadTree sp = Some sp' /\
  (forall j nd chain,
     tree_ sp' !! j = Some nd -> parent_chain (tree_ sp') j chain ->
     Z.of_nat (length chain) = (depth_ nd + 1)%Z) /\
  (forall j nd, tree_ sp' !! j = Some nd ->
     (0 <= depth_ nd <= Z.of_nat (length (closed_set_ sp')))%Z) /\
  head (path_node_origins_ sp') = Some i /\
  tree_ sp' !! i = Some o /\
  Z.of_nat (length (path_node_origins_ sp')) = (depth_ o + 1)%Z /\
  length (path_node_positions_ sp') = length (path_node_origins_ sp') /\
  (Z.of_nat (length (path_node_positions_ sp'))
   <= 1 + Z.max 0 (n_expanded_nodes_ sp))%Z.
Proof.
destruct (buildLookAheadTree_further sp)
  as (s & l & ps & root & sp' & _ & Hinv & Hr & Hle & _ & Hl & Hps & _
      & Hb & Ht & Hc & Ho & Hp & _).
destruct (lookup_lt_is_Some_2 _ _ (inv_origin _ _ Hinv)) as [o Horigin].
pose proof (inv_shape _ _ Hinv) as Hshape.
pose proof (depth_counts_links sp _ _ _ Hshape Hl o Horigin) as Hlen.
pose proof (rinv_depth _ _ Hr _ _ Horigin) as Hdepth.
assert (Hsame : length ps = length l).
{ apply (f_equal length) in Hps. unfold positions_of in Hps.
  rewrite !length_fmap in Hps. congruence. }
exists sp', (ls_origin s), o. split; [exact Hb|]. rewrite Ht, Hc, Ho, Hp.
split; [intros j nd chain Hnd Hchain;
        exact (depth_counts_links sp _ _ _ Hshape Hchain nd Hnd)|].
split; [exact (rinv_depth _ _ Hr)|].
split; [exact (parent_chain_head _ _ _ Hl)|].
split; [exact Horigin|]. split; [exact Hlen|].
rewrite !length_app in *. simpl in *. split; lia.
Qed.

(** X4: in the tree a call produces, every node but node 0 is the node
  that lines 104 to 117 build for a candidate proposed at its parent,
  with the costs the parent has in that tree: its accumulated cost is the
  one of line 114 unless the node is a dead end, whose cost is infinite.
  Node 0 is as lines 57 to 60 built it, with its heuristic as accumulated
  cost, unless it is a dead end. *)
Theorem nodes_built_from_parents :
exists sp' root,
  buildLookAheadTree sp = Some sp' /\
  tree_ sp' !! 0 = Some root /\ root_kept sp root /\
  forall i nd, tree_ sp' !! i = Some nd -> 0 < i ->
    built_from sp (tree_ sp') nd.
Proof.
destruct (buildLookAheadTree_further sp)
  as (s & l & ps & root & sp' & _ & _ & Hr & _ & _ & _ & _ & Hroot & Hb & Ht
      & _).
exists sp', root. split; [exact Hb|]. rewrite Ht.
split; [exact Hroot|]. split; [|exact (rinv_built _ _ Hr)].
destruct (rinv_root _ _ Hr) as (r & Hr0 & Hkept).
rewrite Hroot in Hr0. inversion Hr0; subst. exact Hkept.
Qed.

(** X5: the node the path starts with.  When the expansion budget is not
  positive it is node 0, and nothing is closed.  When the budget is
  positive and the search for the next origin has stalled on the final
  tree, it is the node that was closed last.  When the budget is positive
  and the search has not stalled, every round of the budget was run and
  the path starts with the best open node of the final tree: within the
  path radius, with a price, none cheaper and none before it as cheap. *)
Theorem path_leads_to :
exists sp' i,
  buildLookAheadTree sp = Some sp' /\
  head (path_node_origins_ sp') = Some i /\
  ((n_expanded_nodes_ sp <= 0)%Z -> closed_set_ sp' = [] /\ i = 0) /\
  ((0 < n_expanded_nodes_ sp)%Z -> stalled sp (tree_ sp') ->
   last (closed_set_ sp') = Some i) /\
  ((0 < n_expanded_nodes_ sp)%Z -> ~ stalled sp (tree_ sp') ->
   Z.of_nat (length (closed_set_ sp')) = n_expanded_nodes_ sp /\
   exists o, best_open_node sp (tree_ sp') i o).
Proof.
destruct (buildLookAheadTree_further sp)
  as (s & l & ps & root & sp' & Hs & Hinv & Hr & Hle & Hfull & Hl & _ & _
      & Hb & Ht & Hc & Ho & _).
exists sp', (ls_origin s). split; [exact Hb|]. rewrite Ht, Hc, Ho.
split; [exact (parent_chain_head _ _ _ Hl)|].
assert (Hpos : (0 < n_expanded_nodes_ sp)%Z ->
          if ls_is_expanded_node s
          then exists o, best_open_node sp (ls_tree s) (ls_origin s) o
          else last (ls_closed_set s) = Some (ls_origin s) /\
               stalled sp (ls_tree s)).
{ intros Hn. apply (rinv_origin _ _ Hr). intros Hnone.
  destruct (rinv_first _ _ Hr) as [(_ & _ & Hflag)|Hhead].
  - specialize (Hfull Hflag). rewrite Hnone in Hfull. simpl in Hfull. lia.
  - rewrite Hnone in Hhead. inversion Hhead. }
split.
- intros Hneg. rewrite expanded_eq in Hs.
  replace (Z.to_nat (n_expanded_nodes_ sp)) with 0 in Hs by lia.
  simpl in Hs. inversion Hs. split; reflexivity.
- split.
  + intros Hn Hstall. specialize (Hpos Hn).
    destruct (ls_is_expanded_node s); [|exact (proj1 Hpos)].
    destruct Hpos as (o & Ho' & Hel & Hp & _).
    exfalso. exact (Hstall _ o Ho' Hel Hp).
  + intros Hn Hgo. specialize (Hpos Hn).
    destruct (ls_is_expanded_node s) eqn:Hflag.
    * specialize (Hfull eq_refl). split; [lia|exact Hpos].
    * exfalso. exact (Hgo (proj2 Hpos)).
Qed.

(** X6: two consecutive entries of the path are a node and its parent: the
  parent has the smaller index, is closed, and has a depth one below. *)
Theorem path_steps_to_closed_parents :
exists sp',
  buildLookAheadTree sp = Some sp' /\
  forall k i j,
    path_node_origins_ sp' !! k = Some i ->
    path_node_origins_ sp' !! S k = Some j ->
    j < i /\
    exists nd p,
      tree_ sp' !! i = Some nd /\ origin_ nd = j /\
      tree_ sp' !! j = Some p /\ closed_ p = true /\
      depth_ nd = (depth_ p + 1)%Z.
Proof.
destruct (buildLookAheadTree_further sp)
  as (s & l & ps & root & sp' & _ & Hinv & Hr & _ & _ & Hl & _ & _
      & Hb & Ht & _ & Ho & _).
exists sp'. split; [exact Hb|]. rewrite Ht, Ho.
intros k i j Hi Hj.
destruct (parent_chain_step _ _ _ Hl k i j Hi Hj) as (nd & Hnd & Horig & Hpos).
destruct (shape_child _ _ (inv_shape _ _ Hinv) i nd Hnd Hpos)
  as (Hlt & p & _ & Hp & _ & Hd & _).
destruct (rinv_built _ _ Hr i nd Hnd Hpos) as (p' & _ & _ & Hp' & _ & Hpc & _).
rewrite Hp in Hp'. inversion Hp'; subst p'. rewrite Horig in *.
split; [exact Hlt|]. exists nd, p. repeat split; assumption.
Qed.

(** X7: when a round of the expansion loop chooses a next origin, the
  origin has an accumulated cost below [HUGE_VAL], and no open node
  within the path radius that comes before it in the tree has the same
  accumulated cost: of the cheapest nodes the first one is chosen. *)
Theorem ties_go_to_the_first_node (s s' : LoopState) :
expand_origin sp s = Some s' ->
ls_is_expanded_node s' = true ->
exists o,
  ls_tree s' !! ls_origin s' = Some o /\
  priced o /\
  forall j nj,
    j < ls_origin s' -> ls_tree s' !! j = Some nj -> eligible sp nj ->
    total_cost_ nj <> total_cost_ o.
Proof.
intros He Hflag.
destruct (expand_origin_inv sp s s' He) as (o & new & _ & -> & _).
destruct (state_after_round_search sp s o new)
  as [(Hf & _)|(_ & x & Hx & _ & Hpriced & Hall)]; [congruence|].
exists x. split; [exact Hx|]. split; [exact Hpriced|].
intros j nj Hlt Hj Hel. apply (proj2 (Hall j nj Hj Hel) Hlt).
Qed.

(** X8: after a round, the expansion loop goes on exactly when some open
  node within the path radius has an accumulated cost below [HUGE_VAL];
  a node whose cost is infinite or not a number is never chosen.  When
  the loop stops, [origin] still is the node the round has closed. *)
Theorem loop_goes_on_iff_priced_node (s s' : LoopState) :
expand_origin sp s = Some s' ->
(ls_is_expanded_node s' = true <->
 exists j nj, ls_tree s' !! j = Some nj /\ eligible sp nj /\ priced nj) /\
(ls_is_expanded_node s' = false ->
 ls_origin s' = ls_origin s /\
 last (ls_closed_set s') = Some (ls_origin s)).
Proof.
intros He.
destruct (expand_origin_inv sp s s' He) as (o & new & _ & -> & _).
destruct (state_after_round_search sp s o new)
  as [(Hf & Horig & Hstall)|(Hf & x & Hx & Hel & Hpriced & _)].
- split.
  + split; [congruence|]. intros (j & nj & Hj & Hel & Hp).
    exfalso. exact (Hstall j nj Hj Hel Hp).
  + intros _. split; [exact Horig|].
    rewrite state_after_round_closed_set. apply last_snoc.
- split; [|congruence]. split; [|intros _; exact Hf].
  intros _. exists (ls_origin (state_after_round sp s o new)), x.
  split; [exact Hx|]. split; assumption.
Qed.

(** X9: the nodes a round inserts stand at the end of the tree, in the
  order of the candidates: their positions are the positions that a
  subsequence of the candidates proposed at the origin leads to, and
  there are at most [max 0 children_per_node_] of them. *)
Theorem children_in_candidate_order (s s' : LoopState) :
expand_origin sp s = Some s' ->
exists o cs,
  ls_tree s !! ls_origin s = Some o /\
  cs `sublist_of` candidates_at sp (getPosition o) (getVelocity o) /\
  getPosition <$> drop (length (ls_tree s)) (ls_tree s')
  = child_location sp (getPosition o) <$> cs /\
  length (ls_tree s') = length (ls_tree s) + length cs /\
  (Z.of_nat (length cs) <= Z.max 0 (children_per_node_ sp))%Z.
Proof.
intros He.
destruct (expand_origin_inv sp s s' He)
  as (o & new & Ho & Hs' & Hnil & Hle & _ & Hnew).
assert (Hcs : exists cs,
           cs `sublist_of` candidates_at sp (getPosition o) (getVelocity o) /\
           getPosition <$> new = child_location sp (getPosition o) <$> cs /\
           length new = length cs /\
           s' = state_after_round sp s o new).
{ destruct (ls_tree s !! origin_ o) as [parent|] eqn:Hp.
  - destruct (expand_origin_order sp s o parent Ho Hp) as (cs & Hsub & Heq).
    exists cs. split; [exact Hsub|].
    assert (Hstate : state_after_round sp s o new
                     = state_after_round sp s o
                         (child_node sp (ls_origin s) o parent <$> cs))
      by congruence.
    assert (Hnil' : candidates_at sp (getPosition o) (getVelocity o) = [] ->
                    child_node sp (ls_origin s) o parent <$> cs = []).
    { intros Hn. rewrite Hn in Hsub. apply sublist_nil_r in Hsub.
      rewrite Hsub. reflexivity. }
    apply (f_equal ls_tree) in Hstate.
    rewrite (state_after_round_tree sp s o new Hnil) in Hstate.
    rewrite (state_after_round_tree sp s o _ Hnil') in Hstate.
    apply (f_equal (drop (length (ls_tree s)))) in Hstate.
    rewrite <- !(length_alter (close_origin sp o) (ls_tree s) (ls_origin s))
      in Hstate.
    rewrite !alter_app_l in Hstate by exact (lookup_lt_Some _ _ _ Ho).
    rewrite !drop_app_length in Hstate. subst new.
    split; [rewrite <- list_fmap_compose; reflexivity|].
    split; [apply length_fmap|exact Hs'].
  - exists []. destruct new as [|nd new].
    + split; [apply sublist_nil_l|]. repeat split. exact Hs'.
    + destruct (Hnew ltac:(discriminate)) as (parent & Hp' & _). congruence. }
destruct Hcs as (cs & Hsub & Hpos & Hlen & ->).
exists o, cs. split; [exact Ho|]. split; [exact Hsub|].
rewrite (state_after_round_tree sp s o new Hnil).
rewrite fmap_drop.
rewrite <- (same_static_positions _ _
              (alter_same_static (close_origin sp o) (ls_origin s)
                 (ls_tree s ++ new) (close_origin_static sp o))).
rewrite fmap_app, <- (length_fmap getPosition (ls_tree s)), drop_app_length.
split; [exact Hpos|].
rewrite length_alter, length_app, !length_fmap. split; lia.
Qed.



(** X11: [setGoal] marks the tree as old, with the age 1000; the call that
  follows makes it fresh, with the age 0, keeps the goal, and stores in
  every node the distance from the node to the goal that was set, which
  is what [treeHeuristicFunction] returns for the node. *)
Theorem heuristics_measure_the_goal_set (goal : Vector3f) :
tree_age_ (setGoal goal sp) = 1000%Z /\
exists sp',
  buildLookAheadTree (setGoal goal sp) = Some sp' /\
  tree_age_ sp' = 0%Z /\ goal_ sp' = goal /\
  forall i nd, tree_ sp' !! i = Some nd ->
    heuristic_ nd = norm (vsub goal (getPosition nd)) /\
    treeHeuristicFunction (goal_ sp') (tree_ sp') i = Some (heuristic_ nd).
Proof.
split; [reflexivity|].
destruct (buildLookAheadTree_further (setGoal goal sp))
  as (s & l & ps & root & sp' & _ & Hinv & _ & _ & _ & _ & _ & _ & Hb & Ht
      & _ & _ & _ & Hage & Hsame & _).
exists sp'. split; [exact Hb|]. split; [exact Hage|].
assert (Hgoal : goal_ sp' = goal).
{ destruct Hsame as (_ & _ & _ & _ & _ & _ & _ & Hg & _). symmetry. exact Hg. }
split; [exact Hgoal|]. rewrite Ht, Hgoal.
pose proof (inv_shape _ _ Hinv) as Hshape.
assert (Hh : forall i nd, ls_tree s !! i = Some nd ->
               heuristic_ nd = norm (vsub goal (getPosition nd))).
{ intros [|i] nd Hnd.
  - destruct (shape_root _ _ Hshape) as (r & Hr & _ & _ & Hp & _ & Hh).
    rewrite Hr in Hnd. inversion Hnd; subst. rewrite Hh, Hp. reflexivity.
  - destruct (shape_child _ _ Hshape (S i) nd Hnd ltac:(lia))
      as (_ & _ & _ & _ & _ & _ & _ & Hh). exact Hh. }
intros i nd Hnd. split; [exact (Hh i nd Hnd)|].
unfold treeHeuristicFunction. rewrite Hnd. simpl.
rewrite (Hh i nd Hnd). reflexivity.
Qed.

(** X12: after [setPose] and a call, node 0 stands at the position set,
  with the velocity set; its heading and its [last_z_] are the yaw in the
  frame of the histogram, that is [-yaw + 90] wrapped; its heuristic is
  the distance from the position set to the goal; the path ends with
  the position set. *)
Theorem root_records_the_pose (wrapAngleToPlusMinus180 : float -> float)
  (pos vel : Vector3f) (curr_yaw_fcu_frame_deg : float) :
exists sp' root,
  buildLookAheadTree
    (setPose wrapAngleToPlusMinus180 pos vel curr_yaw_fcu_frame_deg sp)
  = Some sp' /\
  tree_ sp' !! 0 = Some root /\
  getPosition root = pos /\ getVelocity root = vel /\
  yaw_ root
  = wrapAngleToPlusMinus180 (F32.add (F32.opp curr_yaw_fcu_frame_deg) F32.c90) /\
  last_z_ root = yaw_ root /\
  heuristic_ root = norm (vsub (goal_ sp) pos) /\
  last (path_node_positions_ sp') = Some pos.
Proof.
destruct (buildLookAheadTree_further
            (setPose wrapAngleToPlusMinus180 pos vel curr_yaw_fcu_frame_deg sp))
  as (s & l & ps & root & sp' & _ & _ & Hr & _ & _ & _ & _ & Hroot & Hb & Ht
      & _ & _ & Hp & _).
exists sp', root. split; [exact Hb|]. rewrite Ht, Hp, last_snoc.
split; [exact Hroot|].
destruct (rinv_root _ _ Hr) as (r & Hr0 & Hsk & _).
rewrite Hroot in Hr0. inversion Hr0; subst r.
apply skeleton_fields in Hsk.
destruct Hsk as (Hh & He & Hz & _ & _ & Hy & Hpos & Hvel).
simpl in Hh, He, Hz, Hy, Hpos, Hvel.
rewrite Hpos, Hvel, Hy, Hz, Hh. repeat split.
Qed.

(** X13: a second call on the planner a call returned returns the same
  planner: a call changes nothing that a call reads. *)
Theorem second_call_reproduces :
exists sp',
  buildLookAheadTree sp = Some sp' /\ buildLookAheadTree sp' = Some sp'.
Proof.
destruct (buildLookAheadTree_further sp)
  as (s & l & ps & root & sp' & _ & _ & _ & _ & _ & _ & _ & _ & Hb & _ & _
      & _ & _ & _ & Hsame & _).
exists sp'. split; [exact Hb|].
pose proof (expanded_inputs sp sp' Hsame) as Hexp.
revert Hb. unfold buildLookAheadTree. rewrite <- Hexp.
destruct (expanded sp) as [s0|]; simpl; [|discriminate].
destruct (backtrack (length (ls_tree s0)) (ls_tree s0) (ls_origin s0) [] [])
  as [path|]; simpl; [|discriminate].
destruct (ls_tree s0 !! 0) as [r|]; simpl; [|discriminate].
intros Hb. inversion Hb as [Hsp']. simpl. reflexivity.
Qed.

(** X14: [setLastDirection] and a call commute: the last waypoint is
  stored and never read, so the tree, the closed set and the path do not
  depend on it. *)
Theorem last_direction_is_not_read (projected_last_wp : Vector3f) :
buildLookAheadTree (setLastDirection projected_last_wp sp)
= setLastDirection projected_last_wp <$> buildLookAheadTree sp.
Proof.
assert (Hsame : same_inputs (setLastDirection projected_last_wp sp) sp)
  by (repeat split).
unfold buildLookAheadTree. rewrite (expanded_inputs _ _ Hsame).
destruct (expanded sp) as [s|]; simpl; [|reflexivity].
destruct (backtrack (length (ls_tree s)) (ls_tree s) (ls_origin s) [] [])
  as [path|]; simpl; [|reflexivity].
destruct (ls_tree s !! 0) as [r|]; reflexivity.
Qed.

(** X15: after [dynamicReconfigureSetStarParams] and a call, every closed
  node but node 0 lies within the configured box radius of the start
  position, as the planner measures it, and at most
  [max 0 config.n_expanded_nodes_] nodes are closed. *)
Theorem expanded_nodes_within_box_radius {R : Type}
  (static_cast_float : R -> float) (config : LocalPlannerNodeConfig R) :
exists sp',
  buildLookAheadTree
    (dynamicReconfigureSetStarParams static_cast_float config sp)
  = Some sp' /\
  (Z.of_nat (length (closed_set_ sp'))
   <= Z.max 0 (config_n_expanded_nodes_ config))%Z /\
  forall i, i ∈ closed_set_ sp' ->
    i = 0 \/
    exists nd,
      tree_ sp' !! i = Some nd /\ closed_ nd = true /\
      F32.ltb (norm (vsub (getPosition nd) (position_ sp)))
        (static_cast_float (config_box_radius_ config)) = true.
Proof.
destruct (buildLookAheadTree_further
            (dynamicReconfigureSetStarParams static_cast_float config sp))
  as (s & l & ps & root & sp' & _ & Hinv & Hr & Hle & _ & _ & _ & _ & Hb & Ht
      & Hc & _).
exists sp'. split; [exact Hb|]. rewrite Ht, Hc.
simpl in Hle. split; [lia|].
intros i Hi. destruct (rinv_near _ _ Hr i Hi) as [->|(nd & Hnd & Hnear)];
  [left; reflexivity|right].
exists nd. split; [exact Hnd|]. split; [|exact Hnear].
apply (inv_closed _ _ Hinv) in Hi as (nd' & Hnd' & Hclosed).
rewrite Hnd in Hnd'. inversion Hnd'; subst. exact Hclosed.
Qed.


End Extras.

(** ** Further examples *)

(** With a box radius of one and a half, the third round leaves node 4 as
    origin, at (1, 1, 0), although node 3, at (2, 0, 0), is cheaper: node 3
    is outside the radius. *)
Example fan_path :
  path_node_origins_ <$> buildLookAheadTree Tuning.fan = Some [4; 1; 0] /\
  closed_set_ <$> buildLookAheadTree Tuning.fan = Some [0; 1; 2].
Proof. vm_compute. split; reflexivity. Qed.

(** Of two open nodes with the same accumulated cost the first one becomes
    the origin. *)
Example tie_first :
  ls_origin Tuning.tie_round1 = 1 /\
  total_cost_ <$> ls_tree Tuning.tie_round1 !! 1
  = total_cost_ <$> ls_tree Tuning.tie_round1 !! 2.
Proof. vm_compute. split; reflexivity. Qed.

(** X7, at the second round of the fan scene. *)
Lemma ties_go_to_the_first_node_witness :
  expand_origin Tuning.fan Tuning.fan_round1 = Some Tuning.fan_round2 /\
  ls_is_expanded_node Tuning.fan_round2 = true /\
  exists o,
    ls_tree Tuning.fan_round2 !! ls_origin Tuning.fan_round2 = Some o /\
    priced o /\
    forall j nj,
      j < ls_origin Tuning.fan_round2 ->
      ls_tree Tuning.fan_round2 !! j = Some nj -> eligible Tuning.fan nj ->
      total_cost_ nj <> total_cost_ o.
Proof.
  split; [vm_compute; reflexivity|]. split; [vm_compute; reflexivity|].
  apply (ties_go_to_the_first_node Tuning.fan Tuning.fan_round1
           Tuning.fan_round2).
  - vm_compute. reflexivity.
  - vm_compute. reflexivity.
Defined.

(** X8, at the second round of the fan scene. *)
Lemma loop_goes_on_iff_priced_node_witness :
  expand_origin Tuning.fan Tuning.fan_round1 = Some Tuning.fan_round2 /\
  (ls_is_expanded_node Tuning.fan_round2 = true <->
   exists j nj,
     ls_tree Tuning.fan_round2 !! j = Some nj /\ eligible Tuning.fan nj /\
     priced nj) /\
  (ls_is_expanded_node Tuning.fan_round2 = false ->
   ls_origin Tuning.fan_round2 = ls_origin Tuning.fan_round1 /\
   last (ls_closed_set Tuning.fan_round2) = Some (ls_origin Tuning.fan_round1)).
Proof.
  split; [vm_compute; reflexivity|].
  apply (loop_goes_on_iff_priced_node Tuning.fan Tuning.fan_round1
           Tuning.fan_round2).
  vm_compute. reflexivity.
Defined.

(** X9, at the second round of the fan scene. *)
Lemma children_in_candidate_order_witness :
  expand_origin Tuning.fan Tuning.fan_round1 = Some Tuning.fan_round2 /\
  exists o cs,
    ls_tree Tuning.fan_round1 !! ls_origin Tuning.fan_round1 = Some o /\
    cs `sublist_of` candidates_at Tuning.fan (getPosition o) (getVelocity o) /\
    getPosition <$> drop (length (ls_tree Tuning.fan_round1))
                      (ls_tree Tuning.fan_round2)
    = child_location Tuning.fan (getPosition o) <$> cs /\
    length (ls_tree Tuning.fan_round2)
    = length (ls_tree Tuning.fan_round1) + length cs /\
    (Z.of_nat (length cs) <= Z.max 0 (children_per_node_ Tuning.fan))%Z.
Proof.
  split; [vm_compute; reflexivity|].
  apply (children_in_candidate_order Tuning.fan Tuning.fan_round1
           Tuning.fan_round2).
  vm_compute. reflexivity.
Defined.


(** ** The nodes of the straight scene *)

Lemma straight_node0_eq :
  tree_ Scene.straight_result !! 0 = Some Straight.node0.
Proof. vm_compute. reflexivity. Qed.

Lemma straight_node1_eq :
  tree_ Scene.straight_result !! 1 = Some Straight.node1.
Proof. vm_compute. reflexivity. Qed.

Lemma straight_node2_eq :
  tree_ Scene.straight_result !! 2 = Some Straight.node2.
Proof. vm_compute. reflexivity. Qed.

(** C3 as amended, at the first round of the straight scene: the loop goes
    on, with node 1 as origin. *)
Lemma next_origin_is_best_open_node_witness :
  expand_origin Scene.straight Scene.straight_start = Some Scene.straight_round1 /\
  ls_is_expanded_node Scene.straight_round1 = true /\
  ls_origin Scene.straight_round1 = 1 /\
  ls_tree Scene.straight_round1 !! 1 = Some Scene.straight_node1 /\
  (ls_is_expanded_node Scene.straight_round1 = true <->
   exists j nj,
     ls_tree Scene.straight_round1 !! j = Some nj /\
     eligible Scene.straight nj /\ priced nj) /\
  (ls_is_expanded_node Scene.straight_round1 = true ->
   exists nd,
     ls_tree Scene.straight_round1 !! ls_origin Scene.straight_round1 = Some nd /\
     closed_ nd = false /\
     F32.ltb (norm (vsub (getPosition nd) (position_ Scene.straight)))
       (max_path_length_ Scene.straight) = true /\
     priced nd /\
     forall j nj, ls_tree Scene.straight_round1 !! j = Some nj ->
       eligible Scene.straight nj ->
       F32.ltb (total_cost_ nj) (total_cost_ nd) = false) /\
  ((forall j nj, ls_tree Scene.straight_round1 !! j = Some nj ->
      ~ eligible Scene.straight nj) ->
   ls_is_expanded_node Scene.straight_round1 = false) /\
  (ls_is_expanded_node Scene.straight_round1 = false ->
   forall budget,
     expansion_loop Scene.straight budget Scene.straight_round1
     = Some Scene.straight_round1) /\
  (exists sp', buildLookAheadTree Scene.straight = Some sp' /\
               NoDup (closed_set_ sp')).
Proof.
  split; [vm_compute; reflexivity|]. split; [vm_compute; reflexivity|].
  split; [vm_compute; reflexivity|]. split; [vm_compute; reflexivity|].
  apply (next_origin_is_best_open_node Scene.straight Scene.straight_start
           Scene.straight_round1).
  vm_compute. reflexivity.
Defined.

Lemma far_round1_eq : expand_origin Far.planner Far.start = Some Far.round1.
Proof. vm_compute. reflexivity. Qed.

Lemma far_node1_eq : ls_tree Far.round1 !! 1 = Some Far.node1.
Proof. vm_compute. reflexivity. Qed.

Lemma far_node1_eligible : eligible Far.planner Far.node1.
Proof. split; vm_compute; reflexivity. Qed.

(** With the goal so far that the heuristic of node 0 is infinite, the
    accumulated cost of its child is not a number. *)
Example far_costs :
  total_cost_ <$> ls_tree Far.round1 !! 0 = Some F32.HUGE_VAL /\
  total_cost_ Far.node1 = S754_nan.
Proof. vm_compute. split; reflexivity. Qed.

(** C3 as worded fails with the goal at (2^100, 0, 0): after the first
    round node 1 is open and within the path radius, yet no next origin is
    chosen and the loop stops. *)
Lemma origin_choice_counterexample : ~ origin_choice_as_stated Far.planner.
Proof.
  intros Hclaim.
  destruct (Hclaim Far.start Far.round1 far_round1_eq) as [Hchoice _].
  destruct Hchoice as [Hflag _].
  - exists 1, Far.node1. split; [exact far_node1_eq|exact far_node1_eligible].
  - vm_compute in Hflag. discriminate Hflag.
Qed.

(** C7, at node 2 of the straight scene: its parent is node 1, its depth is
    2, and its chain of parents is 2, 1, 0. *)
Lemma parents_form_a_tree_witness :
  tree_ Scene.straight_result !! 2 = Some Straight.node2 /\
  origin_ Straight.node2 = 1 /\ depth_ Straight.node2 = 2%Z /\
  depth_ Straight.node1 = 1%Z /\
  (origin_ Straight.node2 < 2 /\
   exists p,
     tree_ Scene.straight_result !! origin_ Straight.node2 = Some p /\
     depth_ Straight.node2 = (depth_ p + 1)%Z) /\
  exists l ps,
    l = [2; 1] /\
    parent_chain (tree_ Scene.straight_result) 2 (l ++ [0]) /\
    forall fuel, 2 <= fuel ->
      backtrack fuel (tree_ Scene.straight_result) 2 [] [] = Some (l, ps).
Proof.
  destruct (parents_form_a_tree Scene.straight) as (sp' & Hb & Hshape & Hchain).
  assert (sp' = Scene.straight_result) as ->
    by (pose proof straight_result_eq; congruence).
  split; [exact straight_node2_eq|].
  split; [vm_compute; reflexivity|]. split; [vm_compute; reflexivity|].
  split; [vm_compute; reflexivity|].
  split; [apply (Hshape 2 Straight.node2 straight_node2_eq); lia|].
  destruct (Hchain 2) as (l & ps & Hl & Hfuel); [vm_compute; lia|].
  exists l, ps. split; [|split; [exact Hl|exact Hfuel]].
  assert (Ho2 : origin_ Straight.node2 = 1) by (vm_compute; reflexivity).
  assert (Ho1 : origin_ Straight.node1 = 0) by (vm_compute; reflexivity).
  assert (Hc : parent_chain (tree_ Scene.straight_result) 2 [2; 1; 0]).
  { apply (chain_step _ 1 Straight.node2 [1; 0] straight_node2_eq).
    rewrite Ho2.
    apply (chain_step _ 0 Straight.node1 [0] straight_node1_eq).
    rewrite Ho1. apply chain_root. }
  pose proof (parent_chain_unique _ _ _ Hl _ Hc) as Heq.
  apply (app_inj_tail l [2; 1] 0 0) in Heq. exact (proj1 Heq).
Defined.

(** C10, at node 2 of the straight scene: its velocity is the velocity of
    node 0 plus its step from node 1, that is (1, 0, 0), and not the
    velocity of node 1 plus that step, which is (2, 0, 0). *)
Lemma velocity_from_grandparent_witness :
  tree_ Scene.straight_result !! 2 = Some Straight.node2 /\
  tree_ Scene.straight_result !! 1 = Some Straight.node1 /\
  tree_ Scene.straight_result !! 0 = Some Straight.node0 /\
  origin_ Straight.node2 = 1 /\ origin_ Straight.node1 = 0 /\
  getVelocity Straight.node2
  = vadd (getVelocity Straight.node0)
      (vsub (getPosition Straight.node2) (getPosition Straight.node1)) /\
  getVelocity Straight.node2 = Scene.point 1 0 0 /\
  vadd (getVelocity Straight.node1)
    (vsub (getPosition Straight.node2) (getPosition Straight.node1))
  = Scene.point 2 0 0 /\
  getVelocity Straight.node1
  = vadd (velocity_ Scene.straight)
      (vsub (getPosition Straight.node1) (position_ Scene.straight)).
Proof.
  destruct (velocity_from_grandparent Scene.straight) as (sp' & Hb & Hvel).
  assert (sp' = Scene.straight_result) as ->
    by (pose proof straight_result_eq; congruence).
  assert (Ho2 : origin_ Straight.node2 = 1) by (vm_compute; reflexivity).
  assert (Ho1 : origin_ Straight.node1 = 0) by (vm_compute; reflexivity).
  split; [exact straight_node2_eq|]. split; [exact straight_node1_eq|].
  split; [exact straight_node0_eq|]. split; [exact Ho2|]. split; [exact Ho1|].
  split.
  { destruct (Hvel 2 Straight.node2 straight_node2_eq) as (p & g & Hp & Hg & Hv & _);
      [lia|].
    rewrite Ho2, straight_node1_eq in Hp.
    assert (Hpeq : Straight.node1 = p) by congruence. subst p.
    rewrite Ho1, straight_node0_eq in Hg.
    assert (Hgeq : Straight.node0 = g) by congruence. subst g.
    exact Hv. }
  split; [vm_compute; reflexivity|]. split; [vm_compute; reflexivity|].
  destruct (Hvel 1 Straight.node1 straight_node1_eq) as (_ & _ & _ & _ & _ & Hroot);
    [lia|].
  exact (Hroot Ho1).
Defined.

(** ** Where the path of the fan scene and of the brink scene starts *)

Lemma fan_result_eq : buildLookAheadTree Tuning.fan = Some Tuning.fan_result.
Proof. apply buildLookAheadTree_returns. Qed.

Lemma fan_node4_eq : tree_ Tuning.fan_result !! 4 = Some Tuning.fan_node4.
Proof. vm_compute. reflexivity. Qed.

Lemma fan_node4_eligible : eligible Tuning.fan Tuning.fan_node4.
Proof. split; vm_compute; reflexivity. Qed.

Lemma fan_node4_priced : priced Tuning.fan_node4.
Proof. vm_compute. reflexivity. Qed.

(** On the brink scene the whole budget of one round is used, the only child
    stands at the path radius and is not within it, and the path is node 0
    alone. *)
Example brink_path :
  closed_set_ <$> buildLookAheadTree Tuning.brink = Some [0] /\
  length <$> (tree_ <$> buildLookAheadTree Tuning.brink) = Some 2 /\
  path_node_origins_ <$> buildLookAheadTree Tuning.brink = Some [0].
Proof. vm_compute. repeat split; reflexivity. Qed.

(** X5, on the fan scene: the search has not stalled, the three rounds of
    the budget were run, and the path starts with node 4, the best open
    node. *)
Lemma path_leads_to_witness :
  (0 < n_expanded_nodes_ Tuning.fan)%Z /\
  ~ stalled Tuning.fan (tree_ Tuning.fan_result) /\
  head (path_node_origins_ Tuning.fan_result) = Some 4 /\
  n_expanded_nodes_ Tuning.fan = 3%Z /\
  Z.of_nat (length (closed_set_ Tuning.fan_result))
  = n_expanded_nodes_ Tuning.fan /\
  exists o, best_open_node Tuning.fan (tree_ Tuning.fan_result) 4 o.
Proof.
  assert (Hn : (0 < n_expanded_nodes_ Tuning.fan)%Z) by (vm_compute; reflexivity).
  assert (Hgo : ~ stalled Tuning.fan (tree_ Tuning.fan_result)).
  { intros Hstall.
    exact (Hstall 4 Tuning.fan_node4 fan_node4_eq fan_node4_eligible
             fan_node4_priced). }
  assert (Hhead : head (path_node_origins_ Tuning.fan_result) = Some 4)
    by (vm_compute; reflexivity).
  split; [exact Hn|]. split; [exact Hgo|]. split; [exact Hhead|].
  split; [vm_compute; reflexivity|].
  destruct (path_leads_to Tuning.fan) as (sp' & i & Hb & Hi & _ & _ & Hbest).
  assert (sp' = Tuning.fan_result) as ->
    by (pose proof fan_result_eq; congruence).
  assert (i = 4) as -> by congruence.
  exact (Hbest Hn Hgo).
Defined.
